(** * connection.go: connection metadata, Close, DiscardRequests and
      OpenChannelError of package ssh

    A shallow embedding of [src/connection.go].  Byte slices live in a
    heap of backing arrays, [sshConn] structs in a store of objects, the
    libp2p stream is an interface whose methods act on an abstract
    world, and the request-draining loop is an interaction tree that
    receives from its channel and calls [Reply]. *)

From Stdlib Require Import String Ascii List Arith Lia.
From stdpp Require Import base option list gmap strings.
From ITree Require Import ITree.

(** ** fmt.Sprintf, restricted to the verbs this file uses *)

(** Go's [fmt.Stringer]: a type with a [String() string] method. *)
Class Stringer (A : Type) := String_ : A -> string.

(** An operand handed to [Sprintf]: a Go string, or a value whose type
    implements [Stringer]. *)
Inductive operand : Type :=
| OString (s : string)
| OStringer {A : Type} `{Stringer A} (a : A).

(** What the verb [%s] prints for an operand: the string itself, or the
    result of its [String] method. *)
Definition verb_s (v : operand) : string :=
  match v with
  | OString s => s
  | OStringer a => String_ a
  end.

(** [Sprintf format args] for formats built from literal text, [%s] and
    [%%].  A [%s] without operand prints Go's [%!s(MISSING)], a trailing
    [%] prints [%!(NOVERB)].  Other verbs and surplus operands (Go's
    [%!(EXTRA ...)] report) are outside the modelled fragment: [None]. *)
Fixpoint Sprintf (format : string) (args : list operand) : option string :=
  match format with
  | EmptyString =>
      match args with
      | [] => Some EmptyString
      | _ :: _ => None
      end
  | String c rest =>
      if Ascii.eqb c "%" then
        match rest with
        | EmptyString =>
            match args with
            | [] => Some "%!(NOVERB)"%string
            | _ :: _ => None
            end
        | String v rest' =>
            if Ascii.eqb v "s" then
              match args with
              | [] => String.append "%!s(MISSING)"%string <$> Sprintf rest' []
              | a :: args' => String.append (verb_s a) <$> Sprintf rest' args'
              end
            else if Ascii.eqb v "%" then
              String "%" <$> Sprintf rest' args
            else None
        end
      else String c <$> Sprintf rest args
  end.

(** ** OpenChannelError *)

Section OpenChannelError.
(** [RejectionReason] and its [String] method are declared in another
    file of the package; the rendering only needs the method. *)
Context {RejectionReason : Type} `{Stringer RejectionReason}.

(** [type OpenChannelError struct { Reason RejectionReason; Message string }] *)
Record OpenChannelError : Type := mkOpenChannelError {
  Reason : RejectionReason;
  Message : string
}.

(** [func (e *OpenChannelError) Error() string] *)
Definition OpenChannelError_Error (e : OpenChannelError) : option string :=
  Sprintf "ssh: rejected: %s (%s)"%string [OStringer (Reason e); OString (Message e)].
End OpenChannelError.

Arguments OpenChannelError : clear implicits.
Arguments mkOpenChannelError {RejectionReason} _ _.

(** Modelled from the spec: the enumerated rejection codes and their
    human-readable names (the [RejectionReason] constants and
    [RejectionReason.String] are not in this file). *)
Inductive SpecRejectionReason : Type :=
| Prohibited
| ConnectionFailed
| UnknownChannelType
| ResourceShortage.

#[export] Instance SpecRejectionReason_Stringer : Stringer SpecRejectionReason :=
  fun r =>
    match r with
    | Prohibited => "administratively prohibited"
    | ConnectionFailed => "connect failed"
    | UnknownChannelType => "unknown channel type"
    | ResourceShortage => "resource shortage"
    end%string.

(** ** Byte slices *)

(** Addresses of backing arrays and of struct objects. *)
Abbreviation loc := positive.

(** A Go slice header: the backing array it points into ([None] for the
    nil slice), the offset of its first element, its length and its
    capacity. *)
Record slice : Type := mkSlice {
  array : option loc;
  offset : nat;
  len : nat;
  cap : nat
}.

Definition nil_slice : slice := mkSlice None 0 0 0.

(** The address that every allocation of size zero returns (the Go
    runtime's [zerobase]); no array is allocated there. *)
Definition zerobase : loc := 1000%positive.

(** The non-nil slice of length and capacity zero. *)
Definition zero_slice : slice := mkSlice (Some zerobase) 0 0 0.

(** The heap of backing arrays. *)
Abbreviation arrays := (gmap positive (list Byte.byte)).

(** A slice header is valid in a heap when its length is within its
    capacity and the window it describes lies inside an allocated array
    (Go's memory safety keeps every slice so).  A slice of capacity zero
    describes no memory: its pointer is nil, the zero-size address or
    any other, and it is valid in every heap. *)
Definition slice_valid (h : arrays) (s : slice) : bool :=
  (len s <=? cap s)
  && ((cap s =? 0)
      || match array s with
         | None => false
         | Some l =>
             match h !! l with
             | Some arr => offset s + cap s <=? length arr
             | None => false
             end
         end).

(** The elements [s[0], ..., s[len(s)-1]].  Reading no element touches
    no memory. *)
Definition slice_bytes (h : arrays) (s : slice) : option (list Byte.byte) :=
  if len s =? 0 then Some []
  else
    match array s with
    | None => None
    | Some l =>
        match h !! l with
        | Some arr =>
            if offset s + len s <=? length arr
            then Some (take (len s) (drop (offset s) arr))
            else None
        | None => None
        end
    end.

(** ** The libp2p stream, as this file uses it *)

(** [network.Stream] and the [network.Conn] it belongs to are interfaces
    of go-libp2p-core.  Their implementations own a state of their own,
    the world [W]; a method reads and may change it.  [Err] is the type
    of non-nil [error] values. *)
Class NetworkStream (W St Cn Ma Err : Type) : Type := {
  Stream_Close : St -> W -> option Err * W;
  Stream_Conn : St -> W -> Cn * W;
  Conn_RemoteMultiaddr : Cn -> W -> Ma * W;
  Conn_LocalMultiaddr : Cn -> W -> Ma * W
}.

(** ** Program state and the monad of method bodies *)

Section Program.
Context {W St Cn Ma Err Mx : Type} `{!NetworkStream W St Cn Ma Err}.

(** [type sshConn struct]; a nil [stream] interface is [None]. *)
Record sshConn : Type := mkSshConn {
  stream : option St;
  user : string;
  sessionID : slice;
  clientVersion : slice;
  serverVersion : slice
}.

(** [type connection struct].  [transport] and [mux] are pointers; the
    embedded [sshConn] is addressed by [&c.sshConn]. *)
Record connection : Type := mkConnection {
  transport : option loc;
  embedded_sshConn : loc;
  mux : option loc
}.

(** Backing arrays, [sshConn] structs, [connection] structs, the
    multiplexers' own state and the streams' world. *)
Record state : Type := mkState {
  heap : arrays;
  sshConns : gmap positive sshConn;
  connections : gmap positive connection;
  muxes : gmap positive Mx;
  world : W
}.

Definition set_heap (h : arrays) (st : state) : state :=
  mkState h (sshConns st) (connections st) (muxes st) (world st).

Definition set_world (w : W) (st : state) : state :=
  mkState (heap st) (sshConns st) (connections st) (muxes st) w.

(** A method body: a state transformer that may panic ([None]). *)
Definition M (A : Type) : Type := state -> option (A * state).

Definition ret {A} (a : A) : M A := fun st => Some (a, st).

Definition bind {A B} (m : M A) (k : A -> M B) : M B :=
  fun st =>
    match m st with
    | Some (a, st') => k a st'
    | None => None
    end.

Definition panic {A} : M A := fun _ => None.

(** Calling a method of the stream or of its connection object. *)
Definition extern {A} (f : W -> A * W) : M A :=
  fun st => let '(a, w) := f (world st) in Some (a, set_world w st).

(** Method call on an interface value: panics on the nil interface. *)
Definition nonnil {A} (o : option A) : M A :=
  match o with
  | Some a => ret a
  | None => panic
  end.

(** [*c] for [c *sshConn] and for [c *connection]. *)
Definition deref_sshConn (c : loc) : M sshConn :=
  fun st => nonnil (sshConns st !! c) st.

Definition deref_connection (c : loc) : M connection :=
  fun st => nonnil (connections st !! c) st.
End Program.

Arguments sshConn : clear implicits.
Arguments state : clear implicits.
Arguments M : clear implicits.

Declare Scope go_scope.
Delimit Scope go_scope with go.
Notation "'let*' x ':=' m 'in' k" :=
  (bind m (fun x => k))
  (at level 10, x name, m at level 100, k at level 200) : go_scope.
Notation "m ';;;' k" :=
  (bind m (fun _ => k))
  (at level 100, k at level 200, right associativity) : go_scope.

(** ** Slice primitives and the methods of connection.go *)

Section Methods.
Context {W St Cn Ma Err Mx : Type} `{!NetworkStream W St Cn Ma Err}.
Local Open Scope go_scope.

Local Abbreviation state := (state W St Mx).
Local Abbreviation M := (M W St Mx).

(** The address of the next array: one that holds no array yet and is
    not the zero-size address. *)
Definition new_array (h : arrays) : loc := fresh ({[zerobase]} ∪ dom h).

(** [make([]byte, n)].  For [n = 0] nothing is allocated and the slice
    points at the shared zero-size address; otherwise a new, zeroed
    backing array is allocated and the slice has length and capacity
    [n] over it. *)
Definition make (n : nat) : M slice :=
  fun st =>
    match n with
    | 0 => Some (zero_slice, st)
    | S _ =>
        let l := new_array (heap st) in
        Some (mkSlice (Some l) 0 n n,
              set_heap (<[l := replicate n Byte.x00]> (heap st)) st)
    end.

(** [copy(dst, src)]: copies [min(len(dst), len(src))] elements and
    returns that number.  When that number is zero no memory is read or
    written; otherwise the source is read before the destination is
    written, as for overlapping slices. *)
Definition copy (dst src : slice) : M nat :=
  fun st =>
    let n := Nat.min (len dst) (len src) in
    if n =? 0 then Some (0, st)
    else
      match slice_bytes (heap st) src with
      | None => None
      | Some bs =>
          match array dst with
          | None => None
          | Some l =>
              match heap st !! l with
              | None => None
              | Some arr =>
                  if offset dst + n <=? length arr
                  then Some (n, set_heap
                                  (<[l := take (offset dst) arr ++ take n bs
                                          ++ drop (offset dst + n) arr]> (heap st)) st)
                  else None
              end
          end
      end.

(** [s[i] = v], as a caller holding [s] may do; panics out of range. *)
Definition slice_store (s : slice) (i : nat) (v : Byte.byte) : M unit :=
  fun st =>
    if i <? len s then
      match array s with
      | None => None
      | Some l =>
          match heap st !! l with
          | None => None
          | Some arr => Some (tt, set_heap (<[l := <[offset s + i := v]> arr]> (heap st)) st)
          end
      end
    else None.

(** [func dup(src []byte) []byte] *)
Definition dup (src : slice) : M slice :=
  let* dst := make (len src) in
  copy dst src ;;;
  ret dst.

(** [func (c *sshConn) User() string] *)
Definition sshConn_User (c : loc) : M string :=
  let* c_ := deref_sshConn c in
  ret (user c_).

(** [func (c *sshConn) RemoteMultiaddr() ma.Multiaddr] *)
Definition sshConn_RemoteMultiaddr (c : loc) : M Ma :=
  let* c_ := deref_sshConn c in
  let* s := nonnil (stream c_) in
  let* conn := extern (Stream_Conn s) in
  extern (Conn_RemoteMultiaddr conn).

(** [func (c *sshConn) Close() error] *)
Definition sshConn_Close (c : loc) : M (option Err) :=
  let* c_ := deref_sshConn c in
  let* s := nonnil (stream c_) in
  extern (Stream_Close s).

(** [func (c *sshConn) LocalMultiaddr() ma.Multiaddr] *)
Definition sshConn_LocalMultiaddr (c : loc) : M Ma :=
  let* c_ := deref_sshConn c in
  let* s := nonnil (stream c_) in
  let* conn := extern (Stream_Conn s) in
  extern (Conn_LocalMultiaddr conn).

(** [func (c *sshConn) SessionID() []byte] *)
Definition sshConn_SessionID (c : loc) : M slice :=
  let* c_ := deref_sshConn c in
  dup (sessionID c_).

(** [func (c *sshConn) ClientVersion() []byte] *)
Definition sshConn_ClientVersion (c : loc) : M slice :=
  let* c_ := deref_sshConn c in
  dup (clientVersion c_).

(** [func (c *sshConn) ServerVersion() []byte] *)
Definition sshConn_ServerVersion (c : loc) : M slice :=
  let* c_ := deref_sshConn c in
  dup (serverVersion c_).

(** [func (c *connection) Close() error]: [c.sshConn.stream.Close()] *)
Definition connection_Close (c : loc) : M (option Err) :=
  let* c_ := deref_connection c in
  let* sc := deref_sshConn (embedded_sshConn c_) in
  let* s := nonnil (stream sc) in
  extern (Stream_Close s).

(** The six operations of the [ConnMetadata] interface. *)
Inductive accessor : Type :=
| AUser | ASessionID | AClientVersion | AServerVersion
| ARemoteMultiaddr | ALocalMultiaddr.

(** One call of a metadata accessor, its result dropped. *)
Definition call_accessor (a : accessor) (c : loc) : M unit :=
  match a with
  | AUser => sshConn_User c ;;; ret tt
  | ASessionID => sshConn_SessionID c ;;; ret tt
  | AClientVersion => sshConn_ClientVersion c ;;; ret tt
  | AServerVersion => sshConn_ServerVersion c ;;; ret tt
  | ARemoteMultiaddr => sshConn_RemoteMultiaddr c ;;; ret tt
  | ALocalMultiaddr => sshConn_LocalMultiaddr c ;;; ret tt
  end.

(** A sequence of accessor calls on the same connection. *)
Fixpoint call_accessors (l : list accessor) (c : loc) : M unit :=
  match l with
  | [] => ret tt
  | a :: l' => call_accessor a c ;;; call_accessors l' c
  end.

(** A sequence of element stores through one slice. *)
Fixpoint slice_stores (s : slice) (ws : list (nat * Byte.byte)) : M unit :=
  match ws with
  | [] => ret tt
  | (i, v) :: ws' => slice_store s i v ;;; slice_stores s ws'
  end.

(** An established session at [c]: the struct is allocated, its stream
    is set, and its three byte fields are valid slices. *)
Definition established (c : loc) (st : state) : bool :=
  match sshConns st !! c with
  | None => false
  | Some c_ =>
      match stream c_ with
      | None => false
      | Some _ =>
          slice_valid (heap st) (sessionID c_)
          && slice_valid (heap st) (clientVersion c_)
          && slice_valid (heap st) (serverVersion c_)
      end
  end.
(** The three accessors of byte fields, each with the field it reads. *)
Definition byte_accessors : list ((loc -> M slice) * (sshConn St -> slice)) :=
  [ (sshConn_SessionID, sessionID);
    (sshConn_ClientVersion, clientVersion);
    (sshConn_ServerVersion, serverVersion) ].

(** The accessor [acc] of the byte field [field] hands out an
    independent copy at [c]: its result has the stored content; when
    there is content, it lies in an array that was not allocated before
    the call (an empty result has no elements and so no storage of its
    own); the struct and the stored content are as before; and after any
    stores through the result the stored content is still the original
    and a further call again returns the original content, in yet
    another array when there is content. *)
Definition returns_independent_copy (acc : loc -> M slice)
    (field : sshConn St -> slice) (c : loc) (st : state) : Prop :=
  exists (c_ : sshConn St) (bs : list Byte.byte) (r : slice) (st' : state),
    sshConns st !! c = Some c_
    /\ slice_bytes (heap st) (field c_) = Some bs
    /\ acc c st = Some (r, st')
    /\ slice_bytes (heap st') r = Some bs
    /\ (0 < len (field c_) ->
        exists l, array r = Some l /\ l <> zerobase /\ heap st !! l = None)
    /\ sshConns st' = sshConns st
    /\ slice_bytes (heap st') (field c_) = Some bs
    /\ forall (ws : list (nat * Byte.byte)) (st'' : state),
         slice_stores r ws st' = Some (tt, st'') ->
         sshConns st'' = sshConns st
         /\ slice_bytes (heap st'') (field c_) = Some bs
         /\ exists (r2 : slice) (st3 : state),
              acc c st'' = Some (r2, st3)
              /\ slice_bytes (heap st3) r2 = Some bs
              /\ (0 < len (field c_) -> array r2 <> array r).

(** What the connection object of stream [s] reports as its remote and
    as its local address when asked in world [w], with the world the two
    calls leave behind. *)
Definition reported_remote (s : St) (w : W) : Ma * W :=
  let '(conn, w1) := Stream_Conn s w in Conn_RemoteMultiaddr conn w1.

Definition reported_local (s : St) (w : W) : Ma * W :=
  let '(conn, w1) := Stream_Conn s w in Conn_LocalMultiaddr conn w1.

(** A second [Close] on the connection at [c] has no effect of its own:
    it returns and leaves the state as the first call left it. *)
Definition second_Close_changes_nothing (c : loc) (st : state) : Prop :=
  forall (e1 : option Err) (st1 : state),
    connection_Close c st = Some (e1, st1) ->
    exists e2 : option Err, connection_Close c st1 = Some (e2, st1).
End Methods.

(** ** DiscardRequests *)

(** Modelled from the spec: the [Request] struct, declared in another
    file of the package: the request's name, whether the peer waits for
    a reply, and its opaque payload. *)
Record Request : Type := mkRequest {
  Type_ : string;
  WantReply : bool;
  Payload : list Byte.byte
}.

(** What [req, ok := <-in] yields on a [<-chan *Request]: the channel is
    closed, or it delivers a pointer, which may be nil ([None]). *)
Inductive received : Type :=
| Closed
| Item (req : option Request).

(** The loop's interactions: a receive on [in], a call of
    [req.Reply(ok, payload)] (a method declared elsewhere, which returns
    an [error]), and the run-time panic of a nil dereference, which has
    no continuation. *)
Variant discardE {Err : Type} : Type -> Type :=
| Recv : discardE received
| Reply (req : Request) (ok : bool) (payload : slice) : discardE (option Err)
| NilDeref : discardE Empty_set.
Arguments discardE : clear implicits.

Section DiscardRequests.
Context {Err : Type}.

(** [func DiscardRequests(in <-chan *Request)]: one iteration of
    [for req := range in] per round of [ITree.iter]. *)
Definition DiscardRequests : itree (discardE Err) unit :=
  ITree.iter (fun _ : unit =>
    ITree.bind (ITree.trigger Recv) (fun r =>
    match r with
    | Closed => Ret (inr tt)
    | Item None =>
        ITree.bind (ITree.trigger NilDeref) (fun v : Empty_set =>
        match v with end)
    | Item (Some req) =>
        ITree.bind
          (if WantReply req
           then ITree.bind (ITree.trigger (Reply req false nil_slice))
                           (fun _ => Ret tt)
           else Ret tt)
          (fun _ => Ret (inl tt))
    end)) tt.

(** What an observer of the channel and of the peer sees. *)
Inductive event : Type :=
| EvRecv (r : received)
| EvReply (req : Request) (ok : bool) (payload : slice).

(** How a run ends: the function returned, leaving [rest] of the
    environment's answers unused; it is suspended in a receive that
    nothing answers yet; it panicked; or the step budget ran out. *)
Inductive outcome : Type :=
| Returned (log : list event) (rest : list received)
| Blocked (log : list event)
| Panicked (log : list event) (rest : list received)
| OutOfFuel (log : list event).

(** Runs a tree against an environment: [script] answers the receives
    in order, [reply_err] chooses the error each [Reply] call returns
    from the history so far. *)
Fixpoint run (reply_err : list event -> option Err) (fuel : nat)
    (t : itree (discardE Err) unit) (script : list received)
    (log : list event) : outcome :=
  match fuel with
  | 0 => OutOfFuel log
  | S fuel' =>
      match observe t with
      | RetF _ => Returned log script
      | TauF t' => run reply_err fuel' t' script log
      | VisF e k =>
          match e in discardE _ X
                return (X -> itree (discardE Err) unit) -> outcome with
          | Recv => fun k =>
              match script with
              | [] => Blocked log
              | r :: script' => run reply_err fuel' (k r) script' (log ++ [EvRecv r])
              end
          | Reply req ok payload => fun k =>
              run reply_err fuel' (k (reply_err log)) script
                  (log ++ [EvReply req ok payload])
          | NilDeref => fun _ => Panicked log script
          end k
      end
  end.

(** The events one delivered request gives rise to: its receipt, then
    the rejection if the peer waits for a reply. *)
Definition discarded (req : Request) : list event :=
  EvRecv (Item (Some req))
  :: (if WantReply req then [EvReply req false nil_slice] else []).

(** A channel that delivers the given requests, in order. *)
Definition delivers (reqs : list Request) : list received :=
  map (fun req => Item (Some req)) reqs.

(** The number of receives in a log. *)
Definition is_receive (e : event) : bool :=
  match e with
  | EvRecv _ => true
  | EvReply _ _ _ => false
  end.

Definition receives (log : list event) : nat :=
  length (List.filter is_receive log).
End DiscardRequests.

(** ** Two stream implementations and sample states *)

(** The world of a stream that remembers whether it was closed and the
    two addresses its connection reports. *)
Record flag_world : Type := mkFlagWorld {
  fw_closed : bool;
  fw_remote : string;
  fw_local : string
}.

(** A stream whose [Close] only raises the flag: closing it again
    changes nothing. *)
#[export] Instance flag_stream : NetworkStream flag_world unit unit string string := {
  Stream_Close _ w := (None, mkFlagWorld true (fw_remote w) (fw_local w));
  Stream_Conn _ w := (tt, w);
  Conn_RemoteMultiaddr _ w := (fw_remote w, w);
  Conn_LocalMultiaddr _ w := (fw_local w, w)
}.

(** A stream that counts the [Close] calls it receives and answers every
    call after the first with an error. *)
#[export] Instance counting_stream : NetworkStream nat unit unit string string := {
  Stream_Close _ n := (if n =? 0 then None else Some "stream closed"%string, S n);
  Stream_Conn _ n := (tt, n);
  Conn_RemoteMultiaddr _ n := ("/ip4/10.0.0.2/tcp/22"%string, n);
  Conn_LocalMultiaddr _ n := ("/ip4/10.0.0.1/tcp/4001"%string, n)
}.

(** Backing arrays of a sample session: a four-byte array of which the
    session hash is the middle window, and the two version strings. *)
Definition sample_heap : arrays :=
  {[ 1%positive := [Byte.xaa; Byte.x01; Byte.x02; Byte.xbb];
     2%positive := [Byte.x53; Byte.x53; Byte.x48];
     3%positive := [Byte.x32; Byte.x2e; Byte.x30] ]}.

Definition sample_sshConn : sshConn unit :=
  mkSshConn (Some tt) "alice"
            (mkSlice (Some 1%positive) 1 2 3)
            (mkSlice (Some 2%positive) 0 3 3)
            (mkSlice (Some 3%positive) 0 3 3).

(** A session whose version strings were never set: nil slices. *)
Definition bare_sshConn : sshConn unit :=
  mkSshConn None EmptyString nil_slice nil_slice nil_slice.

Definition sample_state {W : Type} (w : W) : state W unit unit :=
  mkState sample_heap
          {[ 10%positive := sample_sshConn; 11%positive := bare_sshConn ]}
          {[ 20%positive := mkConnection None 10%positive (Some 30%positive) ]}
          {[ 30%positive := tt ]}
          w.

Definition sample_world : flag_world :=
  mkFlagWorld false "/ip4/10.0.0.2/tcp/22" "/ip4/10.0.0.1/tcp/4001".

Definition sample_requests : list Request :=
  [ mkRequest "keepalive@openssh.com" true [];
    mkRequest "window-change" false [Byte.x00; Byte.x50];
    mkRequest "exec" true [Byte.x6c; Byte.x73] ].

(** ** Observations on runs and on sequences of calls *)

(** The log an outcome carries, however the run ended. *)
Definition log_of (o : outcome) : list event :=
  match o with
  | Returned log _ => log
  | Blocked log => log
  | Panicked log _ => log
  | OutOfFuel log => log
  end.

(** An event that is not an acceptance: a receive, or a reply that
    refuses, carries the nil payload and goes to a request that asked
    for a reply. *)
Definition refuses (e : event) : Prop :=
  match e with
  | EvRecv _ => True
  | EvReply req ok payload => ok = false /\ payload = nil_slice /\ WantReply req = true
  end.

(** The number of [Reply] calls in a log. *)
Definition replies (log : list event) : nat :=
  length (List.filter (fun e => negb (is_receive e)) log).

Section Calls.
Context {W St Cn Ma Err Mx : Type} `{!NetworkStream W St Cn Ma Err}.
Local Open Scope go_scope.

(** Whether a call of accessor [a] on the session [c_] allocates: the
    three byte accessors do when the field they copy is not empty. *)
Definition allocates (c_ : sshConn St) (a : accessor) : bool :=
  match a with
  | ASessionID => 0 <? len (sessionID c_)
  | AClientVersion => 0 <? len (clientVersion c_)
  | AServerVersion => 0 <? len (serverVersion c_)
  | AUser | ARemoteMultiaddr | ALocalMultiaddr => false
  end.

(** The number of calls in a sequence that allocate. *)
Definition allocating_calls (c_ : sshConn St) (calls : list accessor) : nat :=
  length (List.filter (allocates c_) calls).

(** The slices among [rs] that have elements. *)
Definition nonempty (rs : list slice) : list slice :=
  List.filter (fun r => 0 <? len r) rs.

(** A sequence of calls of byte accessors on the same connection, the
    returned slices collected in call order. *)
Fixpoint collect_copies (accs : list (loc -> M W St Mx slice)) (c : loc)
    : M W St Mx (list slice) :=
  match accs with
  | [] => ret []
  | acc :: accs' =>
      let* r := acc c in
      let* rs := collect_copies accs' c in
      ret (r :: rs)
  end.
End Calls.

(** * Properties *)

(** ** OpenChannelError.Error *)

Lemma OpenChannelError_Error_spec {R : Type} `{Stringer R} (e : OpenChannelError R) :
  OpenChannelError_Error e
  = Some ("ssh: rejected: " +:+ String_ (Reason e) +:+ " (" +:+ Message e +:+ ")")%string.
Proof. destruct e as [reason message]. reflexivity. Qed.

(** C3, as stated, fails: the rendering of the rejection with reason
    "administratively prohibited" and message "no" is not
    "rejected: administratively prohibited (no)"; the text starts with
    the package prefix "ssh: ". *)
Lemma Error_is_not_the_bare_text :
  OpenChannelError_Error (mkOpenChannelError Prohibited "no")
  <> Some "rejected: administratively prohibited (no)"%string.
Proof. vm_compute. discriminate. Qed.

(** C3, amended: for every rejection reason and message the rendering is
    exactly "ssh: rejected: <reason> (<message>)", where <reason> is the
    text of the reason's [String] method; reason "administratively
    prohibited" with message "no" renders
    "ssh: rejected: administratively prohibited (no)". *)
Theorem Error_renders_with_package_prefix :
  (forall (R : Type) (S : Stringer R) (reason : R) (message : string),
      OpenChannelError_Error (mkOpenChannelError reason message)
      = Some ("ssh: rejected: " +:+ String_ reason +:+ " (" +:+ message +:+ ")")%string)
  /\ OpenChannelError_Error (mkOpenChannelError Prohibited "no")
     = Some "ssh: rejected: administratively prohibited (no)"%string.
Proof.
  split.
  - intros R S reason message. apply (OpenChannelError_Error_spec (mkOpenChannelError reason message)).
  - reflexivity.
Qed.

(** ** DiscardRequests *)

Section DiscardRequestsFacts.
Context {Err : Type} (reply_err : list event -> option Err).

(** One round of the loop on a request that waits for a reply: the
    receive, the [Reply] call and the jump back take three steps. *)
Lemma run_item_reply fuel req script log :
  WantReply req = true ->
  run reply_err (S (S (S fuel))) DiscardRequests (Item (Some req) :: script) log
  = run reply_err fuel DiscardRequests script (log ++ discarded req).
Proof.
  intros Hw. unfold discarded. destruct req as [n w p]; simpl in Hw; subst w.
  cbn [WantReply]. rewrite (app_assoc log [_] [_] : log ++ [_; _] = _).
  reflexivity.
Qed.

(** One round on a request that waits for nothing: two steps. *)
Lemma run_item_noreply fuel req script log :
  WantReply req = false ->
  run reply_err (S (S fuel)) DiscardRequests (Item (Some req) :: script) log
  = run reply_err fuel DiscardRequests script (log ++ discarded req).
Proof.
  intros Hw. unfold discarded. destruct req as [n w p]; simpl in Hw; subst w.
  reflexivity.
Qed.

Lemma run_closed fuel script log :
  run reply_err (S (S fuel)) DiscardRequests (Closed :: script) log
  = Returned (log ++ [EvRecv Closed]) script.
Proof. reflexivity. Qed.

Lemma run_drained fuel log :
  run reply_err (S fuel) DiscardRequests [] log = Blocked log.
Proof. reflexivity. Qed.

Lemma run_nil_request fuel script log :
  run reply_err (S (S fuel)) DiscardRequests (Item None :: script) log
  = Panicked (log ++ [EvRecv (Item None)]) script.
Proof. reflexivity. Qed.

(** Once a run has ended, more steps change nothing. *)
Lemma run_mono fuel :
  forall t script log o fuel',
    run reply_err fuel t script log = o ->
    (forall l, o <> OutOfFuel l) ->
    fuel <= fuel' ->
    run reply_err fuel' t script log = o.
Proof.
  induction fuel as [|fuel IH]; intros t script log o fuel' Hr Ho Hle.
  - cbn in Hr. subst o. exfalso. eapply Ho. reflexivity.
  - destruct fuel' as [|fuel']; [lia|].
    cbn in Hr |- *. destruct (observe t) as [r|t'|X e k].
    + exact Hr.
    + eapply IH; eauto. lia.
    + destruct e.
      * destruct script; [exact Hr|]. eapply IH; eauto. lia.
      * eapply IH; eauto. lia.
      * exact Hr.
Qed.

(** The loop consumes a delivered prefix round by round and then
    continues on what follows it. *)
Lemma run_delivers (reqs : list Request) :
  forall (tail : list received) (log : list event) (extra : nat) (o : outcome),
    (forall l, o <> OutOfFuel l) ->
    run reply_err extra DiscardRequests tail (log ++ flat_map discarded reqs) = o ->
    forall fuel, 3 * length reqs + extra <= fuel ->
      run reply_err fuel DiscardRequests (delivers reqs ++ tail) log = o.
Proof.
  induction reqs as [|req reqs IH]; intros tail log extra o Ho Hrun fuel Hfuel.
  - cbn in Hrun |- *. rewrite app_nil_r in Hrun.
    cbn in Hfuel. eapply run_mono; eauto.
  - cbn [length] in Hfuel.
    destruct fuel as [|[|[|fuel]]]; try lia.
    cbn [delivers map app flat_map] in Hrun |- *.
    rewrite app_assoc in Hrun.
    destruct (WantReply req) eqn:Hw.
    + rewrite run_item_reply by exact Hw.
      eapply (IH tail _ extra); eauto. lia.
    + rewrite run_item_noreply by exact Hw.
      eapply (IH tail _ extra); eauto. lia.
Qed.

Lemma receives_app (l1 l2 : list event) :
  receives (l1 ++ l2) = receives l1 + receives l2.
Proof. unfold receives. rewrite List.filter_app, length_app. reflexivity. Qed.

Lemma receives_discarded (reqs : list Request) :
  receives (flat_map discarded reqs) = length reqs.
Proof.
  induction reqs as [|req reqs IH]; [reflexivity|].
  cbn [flat_map length]. rewrite receives_app, IH.
  unfold discarded. destruct (WantReply req); reflexivity.
Qed.
End DiscardRequestsFacts.

(** C2: on every delivery stream, [DiscardRequests] answers each
    consumed request that has [WantReply] set with exactly one
    [Reply(false, nil)], sent before the next receive, and answers a
    request without [WantReply] with nothing: the observable log is the
    concatenation, request by request, of the receipt followed by that
    single rejection or by nothing.  This holds whether the stream is
    then closed, is still open, or delivers a nil pointer. *)
Theorem DiscardRequests_rejects_each_request :
  forall (Err : Type) (reply_err : list event -> option Err)
         (reqs : list Request) (rest : list received) (fuel : nat),
    3 * length reqs + 2 <= fuel ->
    run reply_err fuel DiscardRequests (delivers reqs ++ Closed :: rest) []
    = Returned (flat_map discarded reqs ++ [EvRecv Closed]) rest
    /\ run reply_err fuel DiscardRequests (delivers reqs) []
       = Blocked (flat_map discarded reqs)
    /\ run reply_err fuel DiscardRequests (delivers reqs ++ Item None :: rest) []
       = Panicked (flat_map discarded reqs ++ [EvRecv (Item None)]) rest.
Proof.
  intros Err reply_err reqs rest fuel Hfuel. repeat split.
  - eapply (run_delivers reply_err reqs _ [] 2); [discriminate | | exact Hfuel].
    apply run_closed.
  - rewrite <- (app_nil_r (delivers reqs)).
    eapply (run_delivers reply_err reqs [] [] 1); [discriminate | | lia].
    apply run_drained.
  - eapply (run_delivers reply_err reqs _ [] 2); [discriminate | | exact Hfuel].
    apply run_nil_request.
Qed.

Lemma DiscardRequests_rejects_each_request_witness :
  3 * length sample_requests + 2 <= 11
  /\ run (fun _ => @None string) 11 DiscardRequests
         (delivers sample_requests ++ Closed :: delivers sample_requests) []
     = Returned
         [ EvRecv (Item (Some (mkRequest "keepalive@openssh.com" true [])));
           EvReply (mkRequest "keepalive@openssh.com" true []) false nil_slice;
           EvRecv (Item (Some (mkRequest "window-change" false [Byte.x00; Byte.x50])));
           EvRecv (Item (Some (mkRequest "exec" true [Byte.x6c; Byte.x73])));
           EvReply (mkRequest "exec" true [Byte.x6c; Byte.x73]) false nil_slice;
           EvRecv Closed ]
         (delivers sample_requests).
Proof.
  split.
  - vm_compute. lia.
  - apply (DiscardRequests_rejects_each_request string (fun _ => None)
             sample_requests (delivers sample_requests) 11).
    vm_compute. lia.
Defined.

(** C4: [DiscardRequests] returns exactly when its stream is closed.
    When the stream is closed after any number of requests, the loop
    returns on the receive that observes the closure, having performed
    one receive per request and that one, and leaves everything after it
    unconsumed; as long as the stream is not closed the loop never
    returns, however many requests it has consumed. *)
Theorem DiscardRequests_returns_exactly_on_close :
  forall (Err : Type) (reply_err : list event -> option Err) (reqs : list Request),
    (forall (rest : list received) (fuel : nat),
        3 * length reqs + 2 <= fuel ->
        exists log,
          run reply_err fuel DiscardRequests (delivers reqs ++ Closed :: rest) []
          = Returned log rest
          /\ receives log = S (length reqs)
          /\ last log = Some (EvRecv Closed))
    /\ (forall (fuel : nat) (log : list event) (rest : list received),
           run reply_err fuel DiscardRequests (delivers reqs) [] <> Returned log rest).
Proof.
  intros Err reply_err reqs. split.
  - intros rest fuel Hfuel.
    exists (flat_map discarded reqs ++ [EvRecv Closed]). repeat split.
    + eapply (run_delivers reply_err reqs _ [] 2); [discriminate | | exact Hfuel].
      apply run_closed.
    + rewrite receives_app, receives_discarded. cbn. lia.
    + apply last_snoc.
  - intros fuel log rest Hret.
    assert (Hblocked : run reply_err (fuel + (3 * length reqs + 1)) DiscardRequests
                           (delivers reqs ++ []) [] = Blocked (flat_map discarded reqs)).
    { eapply (run_delivers reply_err reqs [] [] 1); [discriminate | | lia].
      apply run_drained. }
    rewrite app_nil_r in Hblocked.
    eapply run_mono with (fuel' := fuel + (3 * length reqs + 1)) in Hret;
      [ | discriminate | lia ].
    congruence.
Qed.

Lemma DiscardRequests_returns_exactly_on_close_witness :
  (exists log,
      run (fun _ => @None string) 11 DiscardRequests
          (delivers sample_requests ++ Closed :: delivers sample_requests) []
      = Returned log (delivers sample_requests)
      /\ receives log = 4
      /\ last log = Some (EvRecv Closed))
  /\ run (fun _ => @None string) 11 DiscardRequests (delivers sample_requests) []
     <> Returned [] [].
Proof.
  destruct (DiscardRequests_returns_exactly_on_close string (fun _ => None)
              sample_requests) as [Hclose Hopen].
  split.
  - apply (Hclose (delivers sample_requests) 11). vm_compute. lia.
  - apply Hopen.
Defined.

(** ** Slices and dup *)

Lemma slice_bytes_empty (h : arrays) (s : slice) :
  len s = 0 -> slice_bytes h s = Some [].
Proof. intros E. unfold slice_bytes. rewrite E. reflexivity. Qed.

Lemma slice_bytes_length (h : arrays) (s : slice) (bs : list Byte.byte) :
  slice_bytes h s = Some bs -> length bs = len s.
Proof.
  unfold slice_bytes. destruct (Nat.eqb_spec (len s) 0) as [E|_].
  - intros [= <-]. symmetry. exact E.
  - destruct (array s) as [l|]; [|discriminate].
    destruct (h !! l) as [arr|]; [|discriminate].
    destruct (Nat.leb_spec (offset s + len s) (length arr)); [|discriminate].
    intros [= <-]. rewrite length_take, length_drop. lia.
Qed.

Lemma slice_valid_bytes (h : arrays) (s : slice) :
  slice_valid h s = true -> exists bs, slice_bytes h s = Some bs.
Proof.
  unfold slice_valid, slice_bytes. intros [Hlen Hmem]%andb_prop.
  apply Nat.leb_le in Hlen.
  destruct (Nat.eqb_spec (len s) 0) as [E|Hne]; [eauto|].
  apply orb_prop in Hmem as [Hcap|Hmem].
  - apply Nat.eqb_eq in Hcap. lia.
  - destruct (array s) as [l|]; [|discriminate].
    destruct (h !! l) as [arr|]; [|discriminate].
    apply Nat.leb_le in Hmem.
    destruct (Nat.leb_spec (offset s + len s) (length arr)); [eauto | lia].
Qed.

(** Arrays that stay as they are keep every slice over them as it is. *)
Lemma slice_bytes_mono (h h' : arrays) (s : slice) (bs : list Byte.byte) :
  h ⊆ h' -> slice_bytes h s = Some bs -> slice_bytes h' s = Some bs.
Proof.
  intros Hsub. unfold slice_bytes. destruct (len s =? 0); [auto|].
  destruct (array s) as [l|]; [|auto].
  destruct (h !! l) as [arr|] eqn:Hl; [|discriminate].
  rewrite (lookup_weaken _ _ _ _ Hl Hsub). auto.
Qed.

Lemma slice_valid_mono (h h' : arrays) (s : slice) :
  h ⊆ h' -> slice_valid h s = true -> slice_valid h' s = true.
Proof.
  intros Hsub. unfold slice_valid. destruct (len s <=? cap s); [cbn|auto].
  destruct (cap s =? 0); [auto|cbn].
  destruct (array s) as [l|]; [|auto].
  destruct (h !! l) as [arr|] eqn:Hl; [|discriminate].
  rewrite (lookup_weaken _ _ _ _ Hl Hsub). auto.
Qed.

Lemma new_array_unallocated (h : arrays) : h !! new_array h = None.
Proof.
  apply not_elem_of_dom. unfold new_array.
  pose proof (is_fresh ({[zerobase]} ∪ dom h)). set_solver.
Qed.

Lemma new_array_not_zerobase (h : arrays) : new_array h <> zerobase.
Proof.
  unfold new_array. pose proof (is_fresh ({[zerobase]} ∪ dom h)). set_solver.
Qed.

Lemma insert_new_array_subseteq (h : arrays) (arr : list Byte.byte) :
  h ⊆ <[new_array h := arr]> h.
Proof. apply insert_subseteq, new_array_unallocated. Qed.

(** A slice that spans a whole array reads that array. *)
Lemma slice_bytes_of_array (h : arrays) (l : loc) (bs : list Byte.byte) (n : nat) :
  h !! l = Some bs -> n = length bs ->
  slice_bytes h (mkSlice (Some l) 0 n n) = Some bs.
Proof.
  intros Hl ->. unfold slice_bytes. cbn [len array offset Nat.add]. rewrite Hl.
  destruct (Nat.eqb_spec (length bs) 0) as [E|_].
  - apply length_zero_iff_nil in E. subst bs. reflexivity.
  - rewrite Nat.leb_refl. cbn [drop]. rewrite firstn_all. reflexivity.
Qed.

Lemma slice_bytes_whole (h : arrays) (l : loc) (bs : list Byte.byte) :
  slice_bytes (<[l := bs]> h) (mkSlice (Some l) 0 (length bs) (length bs)) = Some bs.
Proof. apply slice_bytes_of_array; [apply lookup_insert_eq | reflexivity]. Qed.

Section MemoryFacts.
Context {W St Cn Ma Err Mx : Type} `{!NetworkStream W St Cn Ma Err}.
Local Abbreviation state := (state W St Mx).

Lemma set_heap_set_heap (h1 h2 : arrays) (st : state) :
  set_heap h2 (set_heap h1 st) = set_heap h2 st.
Proof. reflexivity. Qed.

(** [dup] of a slice without elements: nothing is allocated, read or
    written, and the result is the zero-size slice. *)
Lemma dup_empty (src : slice) (st : state) :
  len src = 0 -> dup src st = Some (zero_slice, st).
Proof. intros E. unfold dup, bind, make, copy, ret. rewrite E. reflexivity. Qed.

(** [dup] of a readable slice with elements: the result spans a new
    array that holds the source's elements; nothing else changes. *)
Lemma dup_nonempty (src : slice) (st : state) (bs : list Byte.byte) :
  0 < len src ->
  slice_bytes (heap st) src = Some bs ->
  dup src st
  = Some (mkSlice (Some (new_array (heap st))) 0 (len src) (len src),
          set_heap (<[new_array (heap st) := bs]> (heap st)) st).
Proof.
  intros Hpos Hbs. pose proof (slice_bytes_length _ _ _ Hbs) as Hlen.
  pose proof (slice_bytes_mono _ _ _ _
                (insert_new_array_subseteq (heap st) (replicate (len src) Byte.x00)) Hbs)
    as Hbs'.
  unfold dup, bind, make, copy, ret.
  destruct (len src) as [|k] eqn:E; [lia|]. cbn [len heap set_heap].
  rewrite Nat.min_id. cbn [Nat.eqb].
  rewrite Hbs'. cbn [array offset].
  rewrite lookup_insert_eq, length_replicate, Nat.leb_refl.
  rewrite insert_insert_eq, drop_replicate, Nat.sub_diag. cbn [replicate take Nat.add].
  rewrite app_nil_r, <- Hlen, firstn_all. reflexivity.
Qed.

(** What every caller of [dup] on a readable slice can rely on. *)
Lemma dup_content (src : slice) (st : state) (bs : list Byte.byte) :
  slice_bytes (heap st) src = Some bs ->
  exists (dst : slice) (st' : state),
    dup src st = Some (dst, st')
    /\ len dst = len src
    /\ slice_bytes (heap st') dst = Some bs
    /\ heap st ⊆ heap st'
    /\ sshConns st' = sshConns st
    /\ connections st' = connections st
    /\ muxes st' = muxes st
    /\ world st' = world st.
Proof.
  intros Hbs. pose proof (slice_bytes_length _ _ _ Hbs) as Hlen.
  destruct (Nat.eq_dec (len src) 0) as [E|Hne].
  - exists zero_slice, st. split; [apply dup_empty, E|].
    split; [symmetry; exact E|].
    assert (bs = []) by (apply length_zero_iff_nil; lia). subst bs.
    repeat split; reflexivity.
  - eexists _, _. split; [apply dup_nonempty; [lia | exact Hbs]|].
    split; [reflexivity|].
    split; [cbn; rewrite <- Hlen; apply slice_bytes_whole|].
    split; [apply insert_new_array_subseteq|].
    repeat split; reflexivity.
Qed.
End MemoryFacts.

Section CopyFacts.
Context {W St Cn Ma Err Mx : Type} `{!NetworkStream W St Cn Ma Err}.
Local Abbreviation state := (state W St Mx).
Local Abbreviation M := (M W St Mx).

(** The body shared by [SessionID], [ClientVersion] and [ServerVersion]:
    [dup(c.field)]. *)
Lemma field_copy_unfold (field : sshConn St -> slice) (c : loc) (st : state)
    (c_ : sshConn St) :
  sshConns st !! c = Some c_ ->
  bind (deref_sshConn c) (fun c_ => dup (field c_)) st = dup (field c_) st.
Proof. intros Hc. unfold bind, deref_sshConn. rewrite Hc. reflexivity. Qed.

Lemma byte_accessor_body (acc : loc -> M slice) (field : sshConn St -> slice) :
  In (acc, field) byte_accessors ->
  acc = fun c => bind (deref_sshConn c) (fun c_ => dup (field c_)).
Proof. intros [[= <- <-]|[[= <- <-]|[[= <- <-]|[]]]]; reflexivity. Qed.

Lemma nil_slice_bytes (h : arrays) : slice_bytes h nil_slice = Some [].
Proof. reflexivity. Qed.

(** C10: [dup] is total.  On every slice that is valid in the heap, the
    nil slice included, it returns a slice of the same length with the
    same elements; on the nil slice the result has length zero.  So
    [SessionID], [ClientVersion] and [ServerVersion] return normally on
    every allocated [sshConn] whose field is a valid slice, and return a
    zero-length slice when the field is nil. *)
Theorem dup_is_total :
  (forall (src : slice) (st : state),
      slice_valid (heap st) src = true ->
      exists (dst : slice) (st' : state) (bs : list Byte.byte),
        dup src st = Some (dst, st')
        /\ len dst = len src
        /\ slice_bytes (heap st) src = Some bs
        /\ slice_bytes (heap st') dst = Some bs)
  /\ (forall st : state,
         slice_valid (heap st) nil_slice = true
         /\ exists (dst : slice) (st' : state),
              dup nil_slice st = Some (dst, st')
              /\ len dst = 0
              /\ slice_bytes (heap st') dst = Some [])
  /\ (forall (acc : loc -> M slice) (field : sshConn St -> slice),
         In (acc, field) byte_accessors ->
         forall (c : loc) (st : state) (c_ : sshConn St),
           sshConns st !! c = Some c_ ->
           (slice_valid (heap st) (field c_) = true ->
            exists (r : slice) (st' : state) (bs : list Byte.byte),
              acc c st = Some (r, st')
              /\ len r = len (field c_)
              /\ slice_bytes (heap st') r = Some bs
              /\ slice_bytes (heap st) (field c_) = Some bs)
           /\ (field c_ = nil_slice ->
               exists (r : slice) (st' : state),
                 acc c st = Some (r, st')
                 /\ len r = 0
                 /\ slice_bytes (heap st') r = Some [])).
Proof.
  assert (Hdup : forall (src : slice) (st : state) (bs : list Byte.byte),
             slice_bytes (heap st) src = Some bs ->
             exists (dst : slice) (st' : state),
               dup src st = Some (dst, st') /\ len dst = len src
               /\ slice_bytes (heap st') dst = Some bs).
  { intros src st bs Hbs.
    destruct (dup_content src st bs Hbs) as (dst & st' & H1 & H2 & H3 & _).
    exists dst, st'. auto. }
  split; [|split].
  - intros src st [bs Hbs]%slice_valid_bytes.
    destruct (Hdup src st bs Hbs) as (dst & st' & H1 & H2 & H3).
    exists dst, st', bs. auto.
  - intros st. split; [reflexivity|].
    destruct (Hdup nil_slice st [] (nil_slice_bytes _)) as (dst & st' & H1 & H2 & H3).
    exists dst, st'. auto.
  - intros acc field Hwhich c st c_ Hc.
    rewrite (byte_accessor_body acc field Hwhich).
    rewrite (field_copy_unfold field c st c_ Hc). split.
    + intros [bs Hbs]%slice_valid_bytes.
      destruct (Hdup (field c_) st bs Hbs) as (r & st' & H1 & H2 & H3).
      exists r, st', bs. auto.
    + intros Hnil.
      assert (Hbs : slice_bytes (heap st) (field c_) = Some [])
        by (rewrite Hnil; reflexivity).
      destruct (Hdup (field c_) st [] Hbs) as (r & st' & H1 & H2 & H3).
      exists r, st'. rewrite Hnil in H2. auto.
Qed.
(** A store through a slice rewrites the slice's array and nothing
    else. *)
Lemma slice_store_spec (s : slice) (l : loc) (i : nat) (v : Byte.byte)
    (st st' : state) :
  array s = Some l ->
  slice_store s i v st = Some (tt, st') ->
  exists arr', st' = set_heap (<[l := arr']> (heap st)) st.
Proof.
  intros Hl. unfold slice_store. rewrite Hl.
  destruct (i <? len s); [|discriminate].
  destruct (heap st !! l) as [arr|]; [|discriminate].
  intros [= <-]. eauto.
Qed.

Lemma slice_stores_spec (s : slice) (l : loc) (ws : list (nat * Byte.byte)) :
  array s = Some l ->
  forall (st st' : state) (arr : list Byte.byte),
    heap st !! l = Some arr ->
    slice_stores s ws st = Some (tt, st') ->
    exists arr', st' = set_heap (<[l := arr']> (heap st)) st.
Proof.
  intros Hl. induction ws as [|[i v] ws IH]; intros st st' arr Harr.
  - intros [= <-]. exists arr. rewrite insert_id by exact Harr.
    destruct st; reflexivity.
  - cbn [slice_stores]. unfold bind at 1.
    destruct (slice_store s i v st) as [[[] st1]|] eqn:Hstore; [|discriminate].
    destruct (slice_store_spec _ _ _ _ _ _ Hl Hstore) as [arr1 ->].
    intros Hrest.
    destruct (IH _ _ arr1 (lookup_insert_eq _ _ _) Hrest) as [arr' ->].
    exists arr'. cbn. rewrite insert_insert_eq. reflexivity.
Qed.

(** No store is possible through a slice without elements. *)
Lemma slice_stores_empty (s : slice) (ws : list (nat * Byte.byte)) (st st' : state) :
  len s = 0 ->
  slice_stores s ws st = Some (tt, st') ->
  st' = st.
Proof.
  intros E. destruct ws as [|[i v] ws].
  - intros [= <-]. reflexivity.
  - cbn [slice_stores]. unfold bind, slice_store. rewrite E.
    replace (i <? 0) with false by (symmetry; apply Nat.ltb_ge; lia).
    discriminate.
Qed.

(** C1: on an established session each of [SessionID], [ClientVersion]
    and [ServerVersion] returns a slice equal in content to the stored
    field; when the field has elements the result is backed by an array
    allocated by that call (a result without elements has no storage to
    share or to store through); stores through the returned slice leave
    the stored field as it was, and a later call of the same accessor
    still returns the original content, in storage of its own. *)
Theorem accessors_return_independent_copies :
  forall (c : loc) (st : state),
    established c st = true ->
    forall (acc : loc -> M slice) (field : sshConn St -> slice),
      In (acc, field) byte_accessors ->
      returns_independent_copy acc field c st.
Proof.
  intros c st Hest acc field Hwhich.
  pose proof (byte_accessor_body acc field Hwhich) as Hbody.
  unfold established in Hest.
  destruct (sshConns st !! c) as [c_|] eqn:Hc; [|discriminate].
  destruct (stream c_) as [s|]; [|discriminate].
  assert (Hvalid : slice_valid (heap st) (field c_) = true).
  { apply andb_prop in Hest as [[H1 H2]%andb_prop H3].
    destruct Hwhich as [[= <- <-]|[[= <- <-]|[[= <- <-]|[]]]]; assumption. }
  destruct (slice_valid_bytes _ _ Hvalid) as [bs Hbs].
  pose proof (slice_bytes_length _ _ _ Hbs) as Hlen.
  assert (Hcall : forall st0 : state,
             sshConns st0 !! c = Some c_ -> acc c st0 = dup (field c_) st0).
  { intros st0 Hc0. rewrite Hbody. apply (field_copy_unfold field c st0 c_ Hc0). }
  destruct (Nat.eq_dec (len (field c_)) 0) as [E|Hne].
  - (* nothing to copy: the zero-size slice, and no store goes through it *)
    assert (bs = []) by (apply length_zero_iff_nil; lia). subst bs.
    exists c_, [], zero_slice, st.
    split; [exact Hc|]. split; [exact Hbs|].
    split; [rewrite (Hcall st Hc); apply dup_empty, E|].
    split; [reflexivity|]. split; [intros Hpos; lia|].
    split; [reflexivity|]. split; [exact Hbs|].
    intros ws st'' Hstores.
    apply (slice_stores_empty zero_slice ws st st'' eq_refl) in Hstores. subst st''.
    split; [reflexivity|]. split; [exact Hbs|].
    exists zero_slice, st.
    split; [rewrite (Hcall st Hc); apply dup_empty, E|].
    split; [reflexivity | intros Hpos; lia].
  - (* a new array, which later stores and calls leave to this result *)
    set (l := new_array (heap st)).
    assert (Hfresh : heap st !! l = None) by apply new_array_unallocated.
    exists c_, bs, (mkSlice (Some l) 0 (len (field c_)) (len (field c_))),
           (set_heap (<[l := bs]> (heap st)) st).
    split; [exact Hc|]. split; [exact Hbs|].
    split; [rewrite (Hcall st Hc); apply dup_nonempty; [lia | exact Hbs]|].
    split; [cbn; rewrite <- Hlen; apply slice_bytes_whole|].
    split; [intros _; exists l;
            split; [reflexivity | split; [apply new_array_not_zerobase | exact Hfresh]]|].
    split; [reflexivity|].
    split; [cbn; eapply slice_bytes_mono; [apply insert_new_array_subseteq | exact Hbs]|].
    intros ws st'' Hstores.
    destruct (slice_stores_spec (mkSlice (Some l) 0 (len (field c_)) (len (field c_)))
                l ws eq_refl _ _ bs (lookup_insert_eq _ _ _) Hstores) as [arr' ->].
    cbn [heap set_heap sshConns]. rewrite insert_insert_eq.
    assert (Hsub : heap st ⊆ <[l := arr']> (heap st))
      by (apply insert_subseteq, Hfresh).
    pose proof (slice_bytes_mono _ _ _ _ Hsub Hbs) as Hbs''.
    split; [reflexivity|]. split; [exact Hbs''|].
    eexists _, _. split; [|split].
    + rewrite set_heap_set_heap.
      rewrite (Hcall (set_heap (<[l := arr']> (heap st)) st) Hc).
      apply dup_nonempty; [lia | exact Hbs''].
    + cbn. rewrite <- Hlen. apply slice_bytes_whole.
    + intros _. cbn. intros [= Heq].
      pose proof (new_array_unallocated (<[l := arr']> (heap st))) as Hnew.
      rewrite Heq, lookup_insert_eq in Hnew. discriminate.
Qed.
End CopyFacts.

Lemma accessors_return_independent_copies_witness :
  established 10%positive (sample_state sample_world) = true
  /\ returns_independent_copy sshConn_SessionID sessionID
       10%positive (sample_state sample_world).
Proof.
  split; [reflexivity|].
  apply (accessors_return_independent_copies 10%positive (sample_state sample_world));
    [reflexivity | left; reflexivity].
Defined.

(** The session hash of the sample session is read, the first byte of
    the returned copy is overwritten, and the hash is read again: the
    first copy shows the store, the second copy and the stored field
    do not. *)
Example SessionID_copy_survives_a_store :
  fst <$> (let* r := sshConn_SessionID 10%positive in
           slice_store r 0 Byte.xff ;;;
           let* r2 := sshConn_SessionID 10%positive in
           fun st => Some ((slice_bytes (heap st) r,
                            slice_bytes (heap st) r2,
                            slice_bytes (heap st) (sessionID sample_sshConn)), st))%go
            (sample_state sample_world)
  = Some (Some [Byte.xff; Byte.x02], Some [Byte.x01; Byte.x02], Some [Byte.x01; Byte.x02]).
Proof. vm_compute. reflexivity. Qed.

Lemma dup_is_total_witness :
  slice_valid (heap (sample_state sample_world)) (mkSlice (Some 1%positive) 1 2 3) = true
  /\ exists (dst : slice) (st' : state flag_world unit unit) (bs : list Byte.byte),
       dup (mkSlice (Some 1%positive) 1 2 3) (sample_state sample_world) = Some (dst, st')
       /\ len dst = 2
       /\ slice_bytes (heap (sample_state sample_world)) (mkSlice (Some 1%positive) 1 2 3)
          = Some bs
       /\ slice_bytes (heap st') dst = Some bs.
Proof.
  split; [reflexivity|].
  apply (proj1 (dup_is_total (W := flag_world) (St := unit) (Mx := unit))
               (mkSlice (Some 1%positive) 1 2 3) (sample_state sample_world)).
  reflexivity.
Defined.

(** On the session whose byte fields are nil, [ServerVersion] returns a
    non-nil slice of length zero. *)
Example ServerVersion_of_nil_field :
  fst <$> sshConn_ServerVersion 11%positive (sample_state sample_world)
  = Some zero_slice.
Proof. vm_compute. reflexivity. Qed.

(** ** The metadata accessors *)

Section AccessorFacts.
Context {W St Cn Ma Err Mx : Type} `{!NetworkStream W St Cn Ma Err}.
Local Abbreviation state := (state W St Mx).
Local Abbreviation M := (M W St Mx).

Lemma established_inv (c : loc) (st : state) :
  established c st = true ->
  exists (c_ : sshConn St) (s : St),
    sshConns st !! c = Some c_ /\ stream c_ = Some s
    /\ slice_valid (heap st) (sessionID c_) = true
    /\ slice_valid (heap st) (clientVersion c_) = true
    /\ slice_valid (heap st) (serverVersion c_) = true.
Proof.
  unfold established. destruct (sshConns st !! c) as [c_|]; [|discriminate].
  destruct (stream c_) as [s|] eqn:Hstream; [|discriminate].
  intros [[H1 H2]%andb_prop H3]%andb_prop.
  exists c_, s. repeat split; assumption || reflexivity.
Qed.

Lemma established_mono (c : loc) (st st' : state) :
  sshConns st' = sshConns st -> heap st ⊆ heap st' ->
  established c st = true -> established c st' = true.
Proof.
  intros Hs Hh (c_ & s & Hc & Hstream & H1 & H2 & H3)%established_inv.
  unfold established. rewrite Hs, Hc, Hstream.
  rewrite !(slice_valid_mono _ _ _ Hh) by assumption. reflexivity.
Qed.

(** One accessor call on an established session returns and leaves the
    structs, the multiplexers and every allocated array as they were. *)
Lemma call_accessor_frame (a : accessor) (c : loc) (st : state) :
  established c st = true ->
  exists st' : state,
    call_accessor a c st = Some (tt, st')
    /\ sshConns st' = sshConns st
    /\ connections st' = connections st
    /\ muxes st' = muxes st
    /\ heap st ⊆ heap st'.
Proof.
  intros (c_ & s & Hc & Hstream & H1 & H2 & H3)%established_inv.
  assert (Hcopy : forall field : sshConn St -> slice,
             slice_valid (heap st) (field c_) = true ->
             exists st' : state,
               bind (bind (deref_sshConn c) (fun c_ => dup (field c_)))
                    (fun _ => ret tt) st = Some (tt, st')
               /\ sshConns st' = sshConns st
               /\ connections st' = connections st
               /\ muxes st' = muxes st
               /\ heap st ⊆ heap st').
  { intros field [bs Hbs]%slice_valid_bytes.
    destruct (dup_content (field c_) st bs Hbs)
      as (r & st' & Hdup & _ & _ & Hh & Hs & Hcs & Hm & _).
    exists st'. unfold bind at 1. rewrite (field_copy_unfold field c st c_ Hc), Hdup.
    auto. }
  destruct a; cbn [call_accessor].
  - unfold bind at 1. unfold sshConn_User, bind, deref_sshConn. rewrite Hc. cbn.
    exists st. auto.
  - apply (Hcopy sessionID H1).
  - apply (Hcopy clientVersion H2).
  - apply (Hcopy serverVersion H3).
  - unfold bind at 1.
    unfold sshConn_RemoteMultiaddr, bind, deref_sshConn, extern. rewrite Hc. cbn.
    rewrite Hstream. cbn.
    destruct (Stream_Conn s (world st)) as [conn w1]. cbn.
    destruct (Conn_RemoteMultiaddr conn w1) as [addr w2]. cbn.
    eexists. split; [reflexivity|]. cbn. auto.
  - unfold bind at 1.
    unfold sshConn_LocalMultiaddr, bind, deref_sshConn, extern. rewrite Hc. cbn.
    rewrite Hstream. cbn.
    destruct (Stream_Conn s (world st)) as [conn w1]. cbn.
    destruct (Conn_LocalMultiaddr conn w1) as [addr w2]. cbn.
    eexists. split; [reflexivity|]. cbn. auto.
Qed.

Lemma call_accessors_frame (calls : list accessor) (c : loc) :
  forall st : state,
    established c st = true ->
    exists st' : state,
      call_accessors calls c st = Some (tt, st')
      /\ sshConns st' = sshConns st
      /\ connections st' = connections st
      /\ muxes st' = muxes st
      /\ heap st ⊆ heap st'.
Proof.
  induction calls as [|a calls IH]; intros st Hest.
  - exists st. cbn. auto.
  - destruct (call_accessor_frame a c st Hest) as (st1 & Hcall & Hs1 & Hc1 & Hm1 & Hh1).
    destruct (IH st1 (established_mono c st st1 Hs1 Hh1 Hest))
      as (st' & Hcalls & Hs & Hc & Hm & Hh).
    exists st'. cbn [call_accessors]. unfold bind at 1. rewrite Hcall.
    split; [exact Hcalls|].
    repeat split; try congruence. etransitivity; eassumption.
Qed.

(** C9: the metadata accessors are read-only and do not fail.  On an
    established session every sequence of calls of [User], [SessionID],
    [ClientVersion], [ServerVersion], [RemoteMultiaddr] and
    [LocalMultiaddr] returns; afterwards the struct holds the same user
    and the same three slices, their contents are the same bytes, and
    [User] returns the same user string, as it did before. *)
Theorem accessors_are_read_only :
  forall (c : loc) (st : state) (c_ : sshConn St),
    established c st = true ->
    sshConns st !! c = Some c_ ->
    sshConn_User c st = Some (user c_, st)
    /\ forall calls : list accessor,
         exists st' : state,
           call_accessors calls c st = Some (tt, st')
           /\ sshConns st' !! c = Some c_
           /\ slice_bytes (heap st') (sessionID c_) = slice_bytes (heap st) (sessionID c_)
           /\ slice_bytes (heap st') (clientVersion c_)
              = slice_bytes (heap st) (clientVersion c_)
           /\ slice_bytes (heap st') (serverVersion c_)
              = slice_bytes (heap st) (serverVersion c_)
           /\ sshConns st' = sshConns st
           /\ connections st' = connections st
           /\ muxes st' = muxes st
           /\ sshConn_User c st' = Some (user c_, st').
Proof.
  intros c st c_ Hest Hc.
  assert (Huser : forall st1 : state,
             sshConns st1 !! c = Some c_ -> sshConn_User c st1 = Some (user c_, st1)).
  { intros st1 H1. unfold sshConn_User, bind, deref_sshConn. rewrite H1. reflexivity. }
  split; [apply Huser, Hc|].
  intros calls.
  destruct (call_accessors_frame calls c st Hest) as (st' & Hcalls & Hs & Hcs & Hm & Hh).
  destruct (established_inv c st Hest) as (c0 & s & Hc0 & _ & H1 & H2 & H3).
  assert (c0 = c_) by congruence. subst c0.
  assert (Hsame : forall f : sshConn St -> slice,
             slice_valid (heap st) (f c_) = true ->
             slice_bytes (heap st') (f c_) = slice_bytes (heap st) (f c_)).
  { intros f [bs Hbs]%slice_valid_bytes.
    rewrite Hbs. eapply slice_bytes_mono; eassumption. }
  exists st'. split; [exact Hcalls|].
  split; [rewrite Hs; exact Hc|].
  repeat (split; [auto|]).
  apply Huser. rewrite Hs. exact Hc.
Qed.

(** C8: [RemoteMultiaddr] and [LocalMultiaddr] return what the stream's
    connection object reports when they are called, whatever the world
    is then; nothing of an earlier answer is kept, so after the stream's
    world has changed the next call returns what is reported in the new
    world. *)
Theorem multiaddrs_are_asked_of_the_stream :
  forall (c : loc) (st : state) (c_ : sshConn St) (s : St),
    sshConns st !! c = Some c_ ->
    stream c_ = Some s ->
    forall w : W,
      sshConn_RemoteMultiaddr c (set_world w st)
      = Some (fst (reported_remote s w), set_world (snd (reported_remote s w)) st)
      /\ sshConn_LocalMultiaddr c (set_world w st)
         = Some (fst (reported_local s w), set_world (snd (reported_local s w)) st)
      /\ forall (w' : W) (a1 : Ma) (st1 : state),
           sshConn_RemoteMultiaddr c (set_world w st) = Some (a1, st1)
           \/ sshConn_LocalMultiaddr c (set_world w st) = Some (a1, st1) ->
           sshConn_RemoteMultiaddr c (set_world w' st1)
           = Some (fst (reported_remote s w'), set_world (snd (reported_remote s w')) st)
           /\ sshConn_LocalMultiaddr c (set_world w' st1)
              = Some (fst (reported_local s w'), set_world (snd (reported_local s w')) st).
Proof.
  intros c st c_ s Hc Hstream.
  assert (Hremote : forall (w : W) (st0 : state),
             sshConns st0 = sshConns st ->
             sshConn_RemoteMultiaddr c (set_world w st0)
             = Some (fst (reported_remote s w), set_world (snd (reported_remote s w)) st0)).
  { intros w st0 Hs.
    unfold sshConn_RemoteMultiaddr, bind, deref_sshConn, extern, reported_remote.
    cbn. rewrite Hs, Hc. cbn. rewrite Hstream. cbn.
    destruct (Stream_Conn s w) as [conn w1]. cbn.
    destruct (Conn_RemoteMultiaddr conn w1) as [addr w2]. reflexivity. }
  assert (Hlocal : forall (w : W) (st0 : state),
             sshConns st0 = sshConns st ->
             sshConn_LocalMultiaddr c (set_world w st0)
             = Some (fst (reported_local s w), set_world (snd (reported_local s w)) st0)).
  { intros w st0 Hs.
    unfold sshConn_LocalMultiaddr, bind, deref_sshConn, extern, reported_local.
    cbn. rewrite Hs, Hc. cbn. rewrite Hstream. cbn.
    destruct (Stream_Conn s w) as [conn w1]. cbn.
    destruct (Conn_LocalMultiaddr conn w1) as [addr w2]. reflexivity. }
  intros w. split; [apply Hremote; reflexivity|].
  split; [apply Hlocal; reflexivity|].
  intros w' a1 st1 Hfirst.
  assert (Hst1 : exists w1, st1 = set_world w1 st).
  { destruct Hfirst as [Hfirst|Hfirst].
    - rewrite Hremote in Hfirst by reflexivity. injection Hfirst as _ <-. eauto.
    - rewrite Hlocal in Hfirst by reflexivity. injection Hfirst as _ <-. eauto. }
  destruct Hst1 as [w1 ->].
  split.
  - apply (Hremote w' (set_world w1 st)). reflexivity.
  - apply (Hlocal w' (set_world w1 st)). reflexivity.
Qed.
End AccessorFacts.

Lemma accessors_are_read_only_witness :
  established 10%positive (sample_state sample_world) = true
  /\ sshConns (sample_state sample_world) !! 10%positive = Some sample_sshConn
  /\ sshConn_User 10%positive (sample_state sample_world)
     = Some ("alice"%string, sample_state sample_world).
Proof.
  split; [reflexivity|]. split; [reflexivity|].
  apply (proj1 (accessors_are_read_only 10%positive (sample_state sample_world)
                  sample_sshConn eq_refl eq_refl)).
Defined.

Lemma multiaddrs_are_asked_of_the_stream_witness :
  sshConns (sample_state sample_world) !! 10%positive = Some sample_sshConn
  /\ stream sample_sshConn = Some tt
  /\ sshConn_RemoteMultiaddr 10%positive
       (set_world (mkFlagWorld false "/dns4/peer/tcp/22" "/ip4/10.0.0.1/tcp/4001")
                  (sample_state sample_world))
     = Some ("/dns4/peer/tcp/22"%string,
             set_world (mkFlagWorld false "/dns4/peer/tcp/22" "/ip4/10.0.0.1/tcp/4001")
                       (sample_state sample_world)).
Proof.
  split; [reflexivity|]. split; [reflexivity|].
  exact (proj1 (multiaddrs_are_asked_of_the_stream 10%positive (sample_state sample_world)
                  sample_sshConn tt eq_refl eq_refl
                  (mkFlagWorld false "/dns4/peer/tcp/22" "/ip4/10.0.0.1/tcp/4001"))).
Defined.

(** ** Close *)

Section CloseFacts.
Context {W St Cn Ma Err Mx : Type} `{!NetworkStream W St Cn Ma Err}.
Local Abbreviation state := (state W St Mx).

(** Both [Close] methods come down to one [Close] call on the stream. *)
Lemma sshConn_Close_spec (c : loc) (st : state) (sc : sshConn St) (s : St) :
  sshConns st !! c = Some sc ->
  stream sc = Some s ->
  sshConn_Close c st
  = Some (fst (Stream_Close s (world st)), set_world (snd (Stream_Close s (world st))) st).
Proof.
  intros Hc Hs. unfold sshConn_Close, bind, deref_sshConn, extern.
  rewrite Hc. cbn. rewrite Hs. cbn.
  destruct (Stream_Close s (world st)) as [e w1]. reflexivity.
Qed.

Lemma connection_Close_unfold (c : loc) (st : state) (c_ : connection) :
  connections st !! c = Some c_ ->
  connection_Close c st = sshConn_Close (embedded_sshConn c_) st.
Proof.
  intros Hc. unfold connection_Close, sshConn_Close, bind at 1, deref_connection.
  rewrite Hc. reflexivity.
Qed.

(** C7: [connection.Close] and the [Close] of the embedded [sshConn] are
    the same operation: in every state they return the same result and
    leave the same state.  When they return, the result is that of the
    owned stream's [Close] and only the stream's world has changed: the
    arrays, the structs and the multiplexers are as before. *)
Theorem connection_Close_is_sshConn_Close :
  forall (c : loc) (st : state) (c_ : connection),
    connections st !! c = Some c_ ->
    connection_Close c st = sshConn_Close (embedded_sshConn c_) st
    /\ forall (e : option Err) (st' : state),
         connection_Close c st = Some (e, st') ->
         exists (sc : sshConn St) (s : St),
           sshConns st !! embedded_sshConn c_ = Some sc
           /\ stream sc = Some s
           /\ Stream_Close s (world st) = (e, world st')
           /\ heap st' = heap st
           /\ sshConns st' = sshConns st
           /\ connections st' = connections st
           /\ muxes st' = muxes st.
Proof.
  intros c st c_ Hc. split; [apply connection_Close_unfold, Hc|].
  intros e st'. rewrite (connection_Close_unfold c st c_ Hc).
  unfold sshConn_Close, bind, deref_sshConn, extern.
  destruct (sshConns st !! embedded_sshConn c_) as [sc|]; [|discriminate]. cbn.
  destruct (stream sc) as [s|] eqn:Hs; [|discriminate]. cbn.
  destruct (Stream_Close s (world st)) as [e1 w1] eqn:Hclose.
  intros [= <- <-]. exists sc, s. cbn. auto 10.
Qed.

(** C6, amended: [Close] keeps no record of having been called.  Each
    call, the second like the first, makes one [Close] call on the owned
    stream and returns its result, without panicking and without
    touching anything but the stream's world; the second call changes
    nothing exactly when the stream's own [Close] changes nothing the
    second time. *)
Theorem Close_twice_closes_the_stream_twice :
  forall (c : loc) (st : state) (c_ : connection) (sc : sshConn St) (s : St)
         (e1 e2 : option Err) (w1 w2 : W),
    connections st !! c = Some c_ ->
    sshConns st !! embedded_sshConn c_ = Some sc ->
    stream sc = Some s ->
    Stream_Close s (world st) = (e1, w1) ->
    Stream_Close s w1 = (e2, w2) ->
    connection_Close c st = Some (e1, set_world w1 st)
    /\ connection_Close c (set_world w1 st) = Some (e2, set_world w2 st)
    /\ sshConn_Close (embedded_sshConn c_) (set_world w1 st) = Some (e2, set_world w2 st)
    /\ (second_Close_changes_nothing c st <-> w2 = w1).
Proof.
  intros c st c_ sc s e1 e2 w1 w2 Hc Hsc Hs Hclose1 Hclose2.
  assert (H1 : connection_Close c st = Some (e1, set_world w1 st)).
  { rewrite (connection_Close_unfold c st c_ Hc).
    rewrite (sshConn_Close_spec _ st sc s Hsc Hs), Hclose1. reflexivity. }
  assert (H2 : sshConn_Close (embedded_sshConn c_) (set_world w1 st)
               = Some (e2, set_world w2 st)).
  { rewrite (sshConn_Close_spec _ (set_world w1 st) sc s Hsc Hs). cbn.
    rewrite Hclose2. reflexivity. }
  assert (H3 : connection_Close c (set_world w1 st) = Some (e2, set_world w2 st)).
  { rewrite (connection_Close_unfold c (set_world w1 st) c_ Hc). exact H2. }
  repeat split; try assumption.
  - intros Hnothing. destruct (Hnothing e1 _ H1) as [e2' He2'].
    rewrite H3 in He2'. injection He2' as _ Hst. exact Hst.
  - intros -> e1' st1 Hfirst. rewrite H1 in Hfirst. injection Hfirst as <- <-.
    exists e2. exact H3.
Qed.
End CloseFacts.

Lemma connection_Close_is_sshConn_Close_witness :
  connections (sample_state sample_world) !! 20%positive
  = Some (mkConnection None 10%positive (Some 30%positive))
  /\ connection_Close 20%positive (sample_state sample_world)
     = sshConn_Close 10%positive (sample_state sample_world).
Proof.
  split; [reflexivity|].
  exact (proj1 (connection_Close_is_sshConn_Close 20%positive (sample_state sample_world)
                  (mkConnection None 10%positive (Some 30%positive)) eq_refl)).
Defined.

(** C6, as stated, fails: on a connection over the stream that counts
    its [Close] calls, the second [Close] returns an error and moves the
    count from one to two, a second effect of its own. *)
Lemma second_Close_has_an_effect :
  connection_Close 20%positive (sample_state 0)
  = Some (None, sample_state 1)
  /\ connection_Close 20%positive (sample_state 1)
     = Some (Some "stream closed"%string, sample_state 2)
  /\ ~ second_Close_changes_nothing 20%positive (sample_state 0).
Proof.
  split; [reflexivity|]. split; [reflexivity|].
  intros Hnothing.
  destruct (Hnothing None (sample_state 1) eq_refl) as [e2 He2].
  vm_compute in He2. discriminate He2.
Qed.

Lemma Close_twice_closes_the_stream_twice_witness :
  connections (sample_state sample_world) !! 20%positive
  = Some (mkConnection None 10%positive (Some 30%positive))
  /\ sshConns (sample_state sample_world) !! 10%positive = Some sample_sshConn
  /\ stream sample_sshConn = Some tt
  /\ Stream_Close tt sample_world
     = (@None string, mkFlagWorld true (fw_remote sample_world) (fw_local sample_world))
  /\ connection_Close 20%positive (sample_state sample_world)
     = Some (None, sample_state (mkFlagWorld true (fw_remote sample_world)
                                             (fw_local sample_world)))
  /\ connection_Close 20%positive
       (sample_state (mkFlagWorld true (fw_remote sample_world) (fw_local sample_world)))
     = Some (None, sample_state (mkFlagWorld true (fw_remote sample_world)
                                             (fw_local sample_world)))
  /\ second_Close_changes_nothing (Err := string) 20%positive (sample_state sample_world).
Proof.
  pose proof (Close_twice_closes_the_stream_twice 20%positive (sample_state sample_world)
                (mkConnection None 10%positive (Some 30%positive)) sample_sshConn tt
                None None
                (mkFlagWorld true (fw_remote sample_world) (fw_local sample_world))
                (mkFlagWorld true (fw_remote sample_world) (fw_local sample_world))
                eq_refl eq_refl eq_refl eq_refl eq_refl) as (H1 & H2 & _ & H3).
  do 4 (split; [reflexivity|]).
  split; [exact H1|]. split; [exact H2|].
  exact (proj2 H3 eq_refl).
Defined.

(** ** DiscardRequests against an arbitrary environment *)

Section DiscardRequestsCases.
Context {Err : Type} (reply_err : list event -> option Err).

Lemma run_out_of_fuel_at_receive (x : received) script log :
  run reply_err 1 DiscardRequests (x :: script) log = OutOfFuel (log ++ [EvRecv x]).
Proof. reflexivity. Qed.

Lemma run_out_of_fuel_at_reply req script log :
  WantReply req = true ->
  run reply_err 2 DiscardRequests (Item (Some req) :: script) log
  = OutOfFuel (log ++ discarded req).
Proof.
  intros Hw. unfold discarded. destruct req as [n w p]; simpl in Hw; subst w.
  cbn [WantReply]. rewrite (app_assoc log [_] [_] : log ++ [_; _] = _).
  reflexivity.
Qed.

(** Case analysis along the loop: a property of runs of
    [DiscardRequests] from the loop head holds of every run when it
    holds where a run stops and is carried back over one round. *)
Lemma run_loop_ind (P : nat -> list received -> list event -> outcome -> Prop) :
  (forall script log, P 0 script log (OutOfFuel log)) ->
  (forall fuel log, P (S fuel) [] log (Blocked log)) ->
  (forall x script log, P 1 (x :: script) log (OutOfFuel (log ++ [EvRecv x]))) ->
  (forall fuel script log,
      P (S (S fuel)) (Closed :: script) log (Returned (log ++ [EvRecv Closed]) script)) ->
  (forall fuel script log,
      P (S (S fuel)) (Item None :: script) log
        (Panicked (log ++ [EvRecv (Item None)]) script)) ->
  (forall req script log,
      WantReply req = true ->
      P 2 (Item (Some req) :: script) log (OutOfFuel (log ++ discarded req))) ->
  (forall fuel req script log o,
      WantReply req = true ->
      P fuel script (log ++ discarded req) o ->
      P (S (S (S fuel))) (Item (Some req) :: script) log o) ->
  (forall fuel req script log o,
      WantReply req = false ->
      P fuel script (log ++ discarded req) o ->
      P (S (S fuel)) (Item (Some req) :: script) log o) ->
  forall fuel script log,
    P fuel script log (run reply_err fuel DiscardRequests script log).
Proof.
  intros Hzero Hblocked Hrecv Hclosed Hnil Hreply Hround Hround'.
  induction fuel as [fuel IH] using lt_wf_ind. intros script log.
  destruct fuel as [|fuel]; [apply Hzero|].
  destruct script as [|x script]; [rewrite run_drained; apply Hblocked|].
  destruct fuel as [|fuel]; [rewrite run_out_of_fuel_at_receive; apply Hrecv|].
  destruct x as [|[req|]].
  - rewrite run_closed. apply Hclosed.
  - destruct (WantReply req) eqn:Hw.
    + destruct fuel as [|fuel].
      * rewrite run_out_of_fuel_at_reply by exact Hw. apply Hreply, Hw.
      * rewrite run_item_reply by exact Hw. apply Hround; [exact Hw|].
        apply IH. lia.
    + rewrite run_item_noreply by exact Hw. apply Hround'; [exact Hw|].
      apply IH. lia.
  - rewrite run_nil_request. apply Hnil.
Qed.
End DiscardRequestsCases.

Lemma refuses_discarded (req : Request) : Forall refuses (discarded req).
Proof.
  unfold discarded. destruct (WantReply req) eqn:Hw; repeat constructor.
  exact Hw.
Qed.

(** X1: whatever the channel delivers and wherever the run is cut off,
    [DiscardRequests] never accepts a request: every reply in the log
    refuses, carries the nil payload and goes to a request whose
    [WantReply] is set. *)
Theorem DiscardRequests_never_accepts :
  forall (Err : Type) (reply_err : list event -> option Err)
         (fuel : nat) (script : list received),
    Forall refuses (log_of (run reply_err fuel DiscardRequests script [])).
Proof.
  intros Err reply_err fuel script.
  assert (Hgen : forall fuel script log,
             Forall refuses log ->
             Forall refuses (log_of (run reply_err fuel DiscardRequests script log))).
  { intros fuel' script' log'.
    apply (run_loop_ind reply_err
             (fun _ _ log o => Forall refuses log -> Forall refuses (log_of o)));
      cbn [log_of]; intros; rewrite ?Forall_app;
      repeat split; auto using refuses_discarded; try (repeat constructor).
    all: match goal with
         | H : _ -> Forall refuses (log_of _) |- _ =>
             apply H; apply Forall_app; auto using refuses_discarded
         end. }
  apply Hgen. constructor.
Qed.

(** X2: the error that [Reply] returns is dropped: two environments that
    differ only in the errors their [Reply] calls return see the same
    run of [DiscardRequests], step for step. *)
Theorem DiscardRequests_ignores_Reply_errors :
  forall (Err : Type) (reply_err1 reply_err2 : list event -> option Err)
         (fuel : nat) (script : list received),
    run reply_err1 fuel DiscardRequests script []
    = run reply_err2 fuel DiscardRequests script [].
Proof.
  intros Err reply_err1 reply_err2 fuel script. symmetry.
  apply (run_loop_ind reply_err1
           (fun fuel script log o => run reply_err2 fuel DiscardRequests script log = o)).
  - reflexivity.
  - intros. apply run_drained.
  - intros. apply run_out_of_fuel_at_receive.
  - intros. apply run_closed.
  - intros. apply run_nil_request.
  - intros. apply run_out_of_fuel_at_reply. assumption.
  - intros f req s log o Hw IH. rewrite run_item_reply by exact Hw. exact IH.
  - intros f req s log o Hw IH. rewrite run_item_noreply by exact Hw. exact IH.
Qed.

Lemma replies_app (l1 l2 : list event) :
  replies (l1 ++ l2) = replies l1 + replies l2.
Proof. unfold replies. rewrite List.filter_app, length_app. reflexivity. Qed.

Lemma replies_discarded (reqs : list Request) :
  replies (flat_map discarded reqs) = length (List.filter WantReply reqs).
Proof.
  induction reqs as [|req reqs IH]; [reflexivity|].
  cbn [flat_map List.filter]. rewrite replies_app, IH.
  unfold discarded. destruct (WantReply req); reflexivity.
Qed.

(** X3: [DiscardRequests] sends as many replies as requests asked for
    one.  On a stream closed after [reqs] the run returns with
    [length (filter WantReply reqs)] replies in its log; and in every
    run, complete or cut off, on any stream, the replies never outnumber
    the receives. *)
Theorem DiscardRequests_reply_count :
  forall (Err : Type) (reply_err : list event -> option Err),
    (forall (reqs : list Request) (rest : list received) (fuel : nat),
        3 * length reqs + 2 <= fuel ->
        exists log,
          run reply_err fuel DiscardRequests (delivers reqs ++ Closed :: rest) []
          = Returned log rest
          /\ replies log = length (List.filter WantReply reqs))
    /\ (forall (fuel : nat) (script : list received),
           replies (log_of (run reply_err fuel DiscardRequests script []))
           <= receives (log_of (run reply_err fuel DiscardRequests script []))).
Proof.
  intros Err reply_err. split.
  - intros reqs rest fuel Hfuel.
    exists (flat_map discarded reqs ++ [EvRecv Closed]). split.
    + eapply (run_delivers reply_err reqs _ [] 2); [discriminate | | exact Hfuel].
      apply run_closed.
    + rewrite replies_app, replies_discarded. cbn. lia.
  - intros fuel script.
    assert (Hround : forall req, replies (discarded req) <= receives (discarded req)).
    { intros req. unfold discarded. destruct (WantReply req); cbn; lia. }
    assert (Hgen : forall fuel script log,
               replies log <= receives log ->
               replies (log_of (run reply_err fuel DiscardRequests script log))
               <= receives (log_of (run reply_err fuel DiscardRequests script log))).
    { intros fuel' script' log'.
      apply (run_loop_ind reply_err
               (fun _ _ log o =>
                  replies log <= receives log -> replies (log_of o) <= receives (log_of o)));
        cbn [log_of]; intros;
        rewrite ?replies_app, ?receives_app; try (cbn; lia).
      - specialize (Hround req). lia.
      - match goal with H : _ -> _ <= _ |- _ => apply H end.
        rewrite replies_app, receives_app. specialize (Hround req). lia.
      - match goal with H : _ -> _ <= _ |- _ => apply H end.
        rewrite replies_app, receives_app. specialize (Hround req). lia. }
    apply Hgen. cbn. lia.
Qed.

Lemma DiscardRequests_reply_count_witness :
  3 * length sample_requests + 2 <= 11
  /\ exists log,
       run (fun _ => @None string) 11 DiscardRequests
           (delivers sample_requests ++ Closed :: []) []
       = Returned log []
       /\ replies log = 2.
Proof.
  split; [vm_compute; lia|].
  apply (proj1 (DiscardRequests_reply_count string (fun _ => None)) sample_requests [] 11).
  vm_compute. lia.
Defined.

(** ** dup, seen from its caller *)

Section DupFacts.
Context {W St Cn Ma Err Mx : Type} `{!NetworkStream W St Cn Ma Err}.
Local Abbreviation state := (state W St Mx).

(** X4: [dup] copies the window of its argument and nothing else.  On a
    readable slice it returns a slice at offset zero whose length and
    capacity are [len(src)] and whose elements are those of [src]; the
    structs, the multiplexers and the stream's world are as they were.
    When [src] has no elements the result is the zero-size slice and
    the state is unchanged: nothing is allocated.  When it has elements
    the result lies over one newly allocated array, which holds exactly
    those [len(src)] elements (bytes of the source's array outside the
    window, and spare capacity, are not carried over), and every other
    array is as it was. *)
Theorem dup_copies_exactly_the_window :
  forall (src : slice) (st : state) (bs : list Byte.byte),
    slice_bytes (heap st) src = Some bs ->
    exists (dst : slice) (st' : state),
      dup src st = Some (dst, st')
      /\ offset dst = 0
      /\ len dst = len src
      /\ cap dst = len src
      /\ length bs = len src
      /\ slice_bytes (heap st') dst = Some bs
      /\ sshConns st' = sshConns st
      /\ connections st' = connections st
      /\ muxes st' = muxes st
      /\ world st' = world st
      /\ (len src = 0 -> dst = zero_slice /\ st' = st)
      /\ (0 < len src ->
          exists l : loc,
            array dst = Some l
            /\ l <> zerobase
            /\ heap st !! l = None
            /\ heap st' !! l = Some bs
            /\ dom (heap st') = {[l]} ∪ dom (heap st)
            /\ forall l' : loc, l' <> l -> heap st' !! l' = heap st !! l').
Proof.
  intros src st bs Hbs. pose proof (slice_bytes_length _ _ _ Hbs) as Hlen.
  destruct (Nat.eq_dec (len src) 0) as [E|Hne].
  - assert (bs = []) by (apply length_zero_iff_nil; lia). subst bs.
    exists zero_slice, st. split; [apply dup_empty, E|].
    cbn [offset len cap zero_slice].
    repeat (split; [reflexivity || (symmetry; exact E) || exact Hlen|]).
    split; [auto | intros Hpos; lia].
  - set (l := new_array (heap st)).
    exists (mkSlice (Some l) 0 (len src) (len src)), (set_heap (<[l := bs]> (heap st)) st).
    split; [apply dup_nonempty; [lia | exact Hbs]|].
    cbn [offset len cap heap set_heap sshConns connections muxes world array].
    do 3 (split; [reflexivity|]). split; [exact Hlen|].
    split; [rewrite <- Hlen; apply slice_bytes_whole|].
    do 4 (split; [reflexivity|]).
    split; [intros E; lia|]. intros _. exists l.
    split; [reflexivity|]. split; [apply new_array_not_zerobase|].
    split; [apply new_array_unallocated|].
    split; [apply lookup_insert_eq|].
    split; [apply dom_insert_L|].
    intros l' Hl'. apply lookup_insert_ne. congruence.
Qed.

(** X5: the copy is a snapshot.  After [dup], stores through the source
    slice change the source and leave the copy with the elements the
    source had when it was copied. *)
Theorem dup_is_a_snapshot :
  forall (src dst : slice) (st st' : state) (bs : list Byte.byte),
    slice_bytes (heap st) src = Some bs ->
    dup src st = Some (dst, st') ->
    forall (ws : list (nat * Byte.byte)) (st'' : state),
      slice_stores src ws st' = Some (tt, st'') ->
      slice_bytes (heap st'') dst = Some bs.
Proof.
  intros src dst st st' bs Hbs Hdup ws st'' Hstores.
  pose proof (slice_bytes_length _ _ _ Hbs) as Hlen.
  destruct (Nat.eq_dec (len src) 0) as [E|Hne].
  - rewrite (dup_empty src st E) in Hdup. injection Hdup as <- <-.
    assert (bs = []) by (apply length_zero_iff_nil; lia). subst bs.
    reflexivity.
  - rewrite (dup_nonempty src st bs) in Hdup by (lia || exact Hbs).
    injection Hdup as <- <-.
    set (l := new_array (heap st)) in *.
    assert (Hfresh : heap st !! l = None) by apply new_array_unallocated.
    assert (Hl0 : exists l0 arr, array src = Some l0 /\ heap st !! l0 = Some arr).
    { unfold slice_bytes in Hbs.
      destruct (Nat.eqb_spec (len src) 0); [lia|].
      destruct (array src) as [l0|]; [|discriminate].
      destruct (heap st !! l0) as [arr|] eqn:Harr; [eauto | discriminate]. }
    destruct Hl0 as (l0 & arr & Hsrc & Harr).
    assert (Hne' : l <> l0) by congruence.
    assert (Harr' : heap (set_heap (<[l := bs]> (heap st)) st) !! l0 = Some arr).
    { cbn. rewrite lookup_insert_ne by exact Hne'. exact Harr. }
    destruct (slice_stores_spec src l0 ws Hsrc _ _ arr Harr' Hstores) as [arr' ->].
    apply slice_bytes_of_array; [|congruence].
    cbn. rewrite lookup_insert_ne by congruence. apply lookup_insert_eq.
Qed.
End DupFacts.

Lemma dup_copies_exactly_the_window_witness :
  slice_bytes (heap (sample_state sample_world)) (mkSlice (Some 1%positive) 1 2 3)
  = Some [Byte.x01; Byte.x02]
  /\ exists (dst : slice) (st' : state flag_world unit unit),
       dup (mkSlice (Some 1%positive) 1 2 3) (sample_state sample_world)
       = Some (dst, st')
       /\ len dst = 2
       /\ cap dst = 2
       /\ slice_bytes (heap st') dst = Some [Byte.x01; Byte.x02].
Proof.
  split; [reflexivity|].
  destruct (dup_copies_exactly_the_window (mkSlice (Some 1%positive) 1 2 3)
              (sample_state sample_world) [Byte.x01; Byte.x02] eq_refl)
    as (dst & st' & Hdup & _ & Hlen & Hcap & _ & Hcopy & _).
  exists dst, st'. split; [exact Hdup|].
  split; [exact Hlen|]. split; [exact Hcap | exact Hcopy].
Defined.

Lemma dup_is_a_snapshot_witness :
  slice_bytes (heap (sample_state sample_world)) (mkSlice (Some 1%positive) 1 2 3)
  = Some [Byte.x01; Byte.x02]
  /\ slice_bytes
       (<[1%positive := [Byte.xaa; Byte.xff; Byte.x02; Byte.xbb]]>
          (<[1001%positive := [Byte.x01; Byte.x02]]> sample_heap))
       (mkSlice (Some 1001%positive) 0 2 2)
     = Some [Byte.x01; Byte.x02].
Proof.
  split; [reflexivity|].
  exact (dup_is_a_snapshot (mkSlice (Some 1%positive) 1 2 3)
           (mkSlice (Some 1001%positive) 0 2 2)
           (sample_state sample_world)
           (set_heap (<[1001%positive := [Byte.x01; Byte.x02]]> sample_heap)
                     (sample_state sample_world))
           [Byte.x01; Byte.x02] eq_refl eq_refl
           [(0, Byte.xff)]
           (set_heap (<[1%positive := [Byte.xaa; Byte.xff; Byte.x02; Byte.xbb]]>
                        (<[1001%positive := [Byte.x01; Byte.x02]]> sample_heap))
                     (sample_state sample_world))
           eq_refl).
Defined.

(** Copying a slice without elements twice: both results are the
    zero-size slice and the heap is as it was. *)
Example dup_of_nothing_allocates_nothing :
  (let* r1 := dup nil_slice in
   let* r2 := dup (mkSlice (Some 2%positive) 3 0 0) in
   fun st => Some ((r1, r2, size (heap st)), st))%go (sample_state sample_world)
  = Some ((zero_slice, zero_slice, 3), sample_state sample_world).
Proof. vm_compute. reflexivity. Qed.

(** ** Accessors and Close together *)

Section SessionFacts.
Context {W St Cn Ma Err Mx : Type} `{!NetworkStream W St Cn Ma Err}.
Local Abbreviation state := (state W St Mx).
Local Abbreviation M := (M W St Mx).

(** A call of a byte accessor is [dup] of the field it reads. *)
Lemma byte_accessor_call (acc : loc -> M slice) (field : sshConn St -> slice)
    (c : loc) (st : state) (c_ : sshConn St) :
  In (acc, field) byte_accessors ->
  sshConns st !! c = Some c_ ->
  acc c st = dup (field c_) st.
Proof.
  intros Hin Hc. rewrite (byte_accessor_body acc field Hin).
  apply (field_copy_unfold field c st c_ Hc).
Qed.

Lemma established_field_valid (c : loc) (st : state) (c_ : sshConn St)
    (acc : loc -> M slice) (field : sshConn St -> slice) :
  established c st = true ->
  sshConns st !! c = Some c_ ->
  In (acc, field) byte_accessors ->
  slice_valid (heap st) (field c_) = true.
Proof.
  intros (c0 & s & Hc0 & _ & H1 & H2 & H3)%established_inv Hc Hin.
  assert (c0 = c_) by congruence. subst c0.
  destruct Hin as [[= <- <-]|[[= <- <-]|[[= <- <-]|[]]]]; assumption.
Qed.

Lemma address_accessors_spec (c : loc) (st : state) (c_ : sshConn St) (s : St) :
  sshConns st !! c = Some c_ ->
  stream c_ = Some s ->
  sshConn_RemoteMultiaddr c st
  = Some (fst (reported_remote s (world st)),
          set_world (snd (reported_remote s (world st))) st)
  /\ sshConn_LocalMultiaddr c st
     = Some (fst (reported_local s (world st)),
             set_world (snd (reported_local s (world st))) st).
Proof.
  intros Hc Hs. split.
  - unfold sshConn_RemoteMultiaddr, bind, deref_sshConn, extern, reported_remote.
    rewrite Hc. cbn. rewrite Hs. cbn.
    destruct (Stream_Conn s (world st)) as [conn w1]. cbn.
    destruct (Conn_RemoteMultiaddr conn w1) as [addr w2]. reflexivity.
  - unfold sshConn_LocalMultiaddr, bind, deref_sshConn, extern, reported_local.
    rewrite Hc. cbn. rewrite Hs. cbn.
    destruct (Stream_Conn s (world st)) as [conn w1]. cbn.
    destruct (Conn_LocalMultiaddr conn w1) as [addr w2]. reflexivity.
Qed.

(** X6: [Close] puts no guard on the metadata.  After [Close] on a
    connection whose session is established, the session is still
    established; [User] returns the same user, the three byte accessors
    return the content they returned before, and the two address
    accessors still ask the stream, now in the world [Close] left. *)
Theorem accessors_work_after_Close :
  forall (cc : loc) (st : state) (c_ : connection) (sc : sshConn St) (s : St),
    connections st !! cc = Some c_ ->
    sshConns st !! embedded_sshConn c_ = Some sc ->
    stream sc = Some s ->
    established (embedded_sshConn c_) st = true ->
    exists (e : option Err) (st' : state),
      connection_Close cc st = Some (e, st')
      /\ sshConn_Close (embedded_sshConn c_) st = Some (e, st')
      /\ established (embedded_sshConn c_) st' = true
      /\ sshConn_User (embedded_sshConn c_) st' = Some (user sc, st')
      /\ (forall (acc : loc -> M slice) (field : sshConn St -> slice),
             In (acc, field) byte_accessors ->
             exists (r : slice) (st2 : state),
               acc (embedded_sshConn c_) st' = Some (r, st2)
               /\ slice_bytes (heap st2) r = slice_bytes (heap st) (field sc))
      /\ sshConn_RemoteMultiaddr (embedded_sshConn c_) st'
         = Some (fst (reported_remote s (world st')),
                 set_world (snd (reported_remote s (world st'))) st')
      /\ sshConn_LocalMultiaddr (embedded_sshConn c_) st'
         = Some (fst (reported_local s (world st')),
                 set_world (snd (reported_local s (world st'))) st').
Proof.
  intros cc st c_ sc s Hcc Hsc Hs Hest.
  set (c := embedded_sshConn c_) in *.
  set (st' := set_world (snd (Stream_Close s (world st))) st).
  assert (Hclose : sshConn_Close c st = Some (fst (Stream_Close s (world st)), st'))
    by apply (sshConn_Close_spec c st sc s Hsc Hs).
  assert (Hsc' : sshConns st' !! c = Some sc) by exact Hsc.
  assert (Hest' : established c st' = true)
    by (apply (established_mono c st st'); [reflexivity | reflexivity | exact Hest]).
  exists (fst (Stream_Close s (world st))), st'.
  split; [rewrite (connection_Close_unfold cc st c_ Hcc); exact Hclose|].
  split; [exact Hclose|]. split; [exact Hest'|].
  split; [unfold sshConn_User, bind, deref_sshConn; rewrite Hsc'; reflexivity|].
  split.
  - intros acc field Hin.
    pose proof (established_field_valid c st sc acc field Hest Hsc Hin) as Hvalid.
    destruct (slice_valid_bytes _ _ Hvalid) as [bs Hbs].
    destruct (dup_content (field sc) st' bs Hbs) as (r & st2 & Hdup & _ & Hr & _).
    exists r, st2. rewrite (byte_accessor_call acc field c st' sc Hin Hsc').
    split; [exact Hdup|]. rewrite Hbs. exact Hr.
  - apply (address_accessors_spec c st' sc s Hsc' Hs).
Qed.

(** X7: a session whose [stream] is the nil interface.  [Close] (on the
    [sshConn] and on a [connection] that embeds it), [RemoteMultiaddr]
    and [LocalMultiaddr] panic; [User] and the three byte accessors do
    not use the stream and return as usual. *)
Theorem nil_stream_only_breaks_stream_methods :
  forall (c : loc) (st : state) (sc : sshConn St),
    sshConns st !! c = Some sc ->
    stream sc = None ->
    sshConn_Close c st = None
    /\ sshConn_RemoteMultiaddr c st = None
    /\ sshConn_LocalMultiaddr c st = None
    /\ (forall (cc : loc) (c_ : connection),
           connections st !! cc = Some c_ -> embedded_sshConn c_ = c ->
           connection_Close cc st = None)
    /\ sshConn_User c st = Some (user sc, st)
    /\ (forall (acc : loc -> M slice) (field : sshConn St -> slice) (bs : list Byte.byte),
           In (acc, field) byte_accessors ->
           slice_bytes (heap st) (field sc) = Some bs ->
           exists (r : slice) (st' : state),
             acc c st = Some (r, st') /\ slice_bytes (heap st') r = Some bs).
Proof.
  intros c st sc Hc Hs.
  assert (Hclose : sshConn_Close c st = None).
  { unfold sshConn_Close, bind, deref_sshConn. rewrite Hc. cbn. rewrite Hs. reflexivity. }
  split; [exact Hclose|].
  split; [unfold sshConn_RemoteMultiaddr, bind, deref_sshConn; rewrite Hc; cbn;
          rewrite Hs; reflexivity|].
  split; [unfold sshConn_LocalMultiaddr, bind, deref_sshConn; rewrite Hc; cbn;
          rewrite Hs; reflexivity|].
  split; [intros cc c_ Hcc <-; rewrite (connection_Close_unfold cc st c_ Hcc);
          exact Hclose|].
  split; [unfold sshConn_User, bind, deref_sshConn; rewrite Hc; reflexivity|].
  intros acc field bs Hin Hbs.
  destruct (dup_content (field sc) st bs Hbs) as (r & st' & Hdup & _ & Hr & _).
  exists r, st'. rewrite (byte_accessor_call acc field c st sc Hin Hc). auto.
Qed.

(** What one accessor call does to the heap of arrays. *)
Lemma call_accessor_heap (a : accessor) (c : loc) (st : state) (c_ : sshConn St) :
  established c st = true ->
  sshConns st !! c = Some c_ ->
  exists st' : state,
    call_accessor a c st = Some (tt, st')
    /\ sshConns st' = sshConns st
    /\ heap st ⊆ heap st'
    /\ size (heap st') = size (heap st) + (if allocates c_ a then 1 else 0).
Proof.
  intros Hest Hc.
  destruct (established_inv c st Hest) as (c0 & s & Hc0 & Hs & _).
  assert (c0 = c_) by congruence. subst c0.
  assert (Hcopy : forall (acc : loc -> M slice) (field : sshConn St -> slice),
             In (acc, field) byte_accessors ->
             exists st' : state,
               bind (acc c) (fun _ => ret tt) st = Some (tt, st')
               /\ sshConns st' = sshConns st
               /\ heap st ⊆ heap st'
               /\ size (heap st')
                  = size (heap st) + (if 0 <? len (field c_) then 1 else 0)).
  { intros acc field Hin.
    destruct (slice_valid_bytes _ _ (established_field_valid c st c_ acc field Hest Hc Hin))
      as [bs Hbs].
    unfold bind at 1. rewrite (byte_accessor_call acc field c st c_ Hin Hc).
    destruct (Nat.ltb_spec 0 (len (field c_))) as [Hpos|Hzero].
    - rewrite (dup_nonempty (field c_) st bs Hpos Hbs).
      eexists. split; [reflexivity|]. cbn.
      split; [reflexivity|]. split; [apply insert_new_array_subseteq|].
      rewrite map_size_insert_None by apply new_array_unallocated. lia.
    - rewrite (dup_empty (field c_) st) by lia.
      exists st. split; [reflexivity|].
      split; [reflexivity|]. split; [reflexivity | lia]. }
  destruct (address_accessors_spec c st c_ s Hc Hs) as [Hremote Hlocal].
  destruct a; cbn [call_accessor allocates].
  - exists st. unfold bind at 1.
    unfold sshConn_User, bind, deref_sshConn. rewrite Hc. cbn.
    split; [reflexivity|]. split; [reflexivity|]. split; [reflexivity | lia].
  - apply (Hcopy sshConn_SessionID sessionID). cbn. auto.
  - apply (Hcopy sshConn_ClientVersion clientVersion). cbn. auto.
  - apply (Hcopy sshConn_ServerVersion serverVersion). cbn. auto.
  - unfold bind at 1. rewrite Hremote. eexists. split; [reflexivity|]. cbn.
    split; [reflexivity|]. split; [reflexivity | lia].
  - unfold bind at 1. rewrite Hlocal. eexists. split; [reflexivity|]. cbn.
    split; [reflexivity|]. split; [reflexivity | lia].
Qed.

(** X8: the allocations of the accessors.  A sequence of accessor calls
    on an established session allocates one array for each call of
    [SessionID], [ClientVersion] or [ServerVersion] whose field has
    elements and none for any other call (a copy of an empty field
    allocates nothing), and frees or overwrites no array that existed. *)
Theorem accessors_allocate_one_array_per_nonempty_copy :
  forall (calls : list accessor) (c : loc) (st : state) (c_ : sshConn St),
    established c st = true ->
    sshConns st !! c = Some c_ ->
    exists st' : state,
      call_accessors calls c st = Some (tt, st')
      /\ size (heap st') = size (heap st) + allocating_calls c_ calls
      /\ heap st ⊆ heap st'.
Proof.
  induction calls as [|a calls IH]; intros c st c_ Hest Hc.
  - exists st. cbn. split; [reflexivity|]. split; [lia | reflexivity].
  - destruct (call_accessor_heap a c st c_ Hest Hc) as (st1 & Hcall & Hs1 & Hh1 & Hsize1).
    assert (Hc1 : sshConns st1 !! c = Some c_) by (rewrite Hs1; exact Hc).
    destruct (IH c st1 c_ (established_mono c st st1 Hs1 Hh1 Hest) Hc1)
      as (st' & Hcalls & Hsize & Hh).
    exists st'. cbn [call_accessors]. unfold bind at 1. rewrite Hcall.
    split; [exact Hcalls|]. split; [|etransitivity; eassumption].
    rewrite Hsize, Hsize1. unfold allocating_calls. cbn [List.filter].
    destruct (allocates c_ a); cbn; lia.
Qed.

(** X9: no two calls hand out the same storage.  Among the slices
    returned by any sequence of byte-accessor calls on an established
    session, those that have elements lie in pairwise different arrays,
    none of which existed before the first call and all of which are
    still allocated after the last; those without elements are all the
    zero-size slice, which has no storage. *)
Theorem copies_are_pairwise_separate :
  forall (accs : list (loc -> M slice)) (c : loc) (st : state),
    established c st = true ->
    Forall (fun acc => exists field, In (acc, field) byte_accessors) accs ->
    exists (rs : list slice) (st' : state),
      collect_copies accs c st = Some (rs, st')
      /\ length rs = length accs
      /\ NoDup (array <$> nonempty rs)
      /\ Forall (fun r => exists l : loc,
                     array r = Some l /\ l <> zerobase /\ heap st !! l = None
                     /\ is_Some (heap st' !! l)) (nonempty rs)
      /\ Forall (fun r => len r = 0 -> r = zero_slice) rs
      /\ heap st ⊆ heap st'
      /\ sshConns st' = sshConns st.
Proof.
  induction accs as [|acc accs IH]; intros c st Hest Haccs.
  - exists [], st. cbn. repeat split; auto; constructor.
  - apply Forall_cons in Haccs as [[field Hin] Haccs].
    destruct (established_inv c st Hest) as (c_ & s & Hc & _).
    destruct (slice_valid_bytes _ _ (established_field_valid c st c_ acc field Hest Hc Hin))
      as [bs Hbs].
    pose proof (byte_accessor_call acc field c st c_ Hin Hc) as Hcall.
    destruct (Nat.eq_dec (len (field c_)) 0) as [E|Hne].
    + rewrite (dup_empty (field c_) st E) in Hcall.
      destruct (IH c st Hest Haccs) as (rs & st' & Hrest & Hlen & Hnodup & Hall & Hzero & Hh & Hs).
      exists (zero_slice :: rs), st'. cbn [collect_copies]. unfold bind at 1.
      rewrite Hcall. unfold bind at 1. rewrite Hrest.
      split; [reflexivity|]. split; [cbn; congruence|].
      split; [exact Hnodup|]. split; [exact Hall|].
      split; [constructor; [reflexivity | exact Hzero]|]. auto.
    + rewrite (dup_nonempty (field c_) st bs) in Hcall by (lia || exact Hbs).
      set (l := new_array (heap st)) in *.
      set (st1 := set_heap (<[l := bs]> (heap st)) st) in *.
      assert (Hh1 : heap st ⊆ heap st1) by apply insert_new_array_subseteq.
      assert (Hest1 : established c st1 = true)
        by (apply (established_mono c st st1); [reflexivity | exact Hh1 | exact Hest]).
      destruct (IH c st1 Hest1 Haccs)
        as (rs & st' & Hrest & Hlen & Hnodup & Hall & Hzero & Hh & Hs).
      assert (Hl' : is_Some (heap st' !! l)).
      { exists bs. eapply lookup_weaken; [|exact Hh]. apply lookup_insert_eq. }
      eexists (_ :: rs), st'. cbn [collect_copies]. unfold bind at 1. rewrite Hcall.
      unfold bind at 1. rewrite Hrest. split; [reflexivity|].
      split; [cbn; congruence|].
      assert (Hkeep : nonempty (mkSlice (Some l) 0 (len (field c_)) (len (field c_)) :: rs)
                      = mkSlice (Some l) 0 (len (field c_)) (len (field c_)) :: nonempty rs).
      { unfold nonempty. cbn [List.filter len].
        destruct (Nat.ltb_spec 0 (len (field c_))); [reflexivity | lia]. }
      rewrite Hkeep.
      split; [|split; [|split; [|split]]].
      * cbn. apply NoDup_cons. split; [|exact Hnodup].
        intros (r & Hr & Hrin)%list_elem_of_fmap_1.
        rewrite Forall_forall in Hall.
        destruct (Hall r Hrin) as (l' & Hl'eq & _ & Hnone & _).
        assert (l' = l) by congruence. subst l'.
        cbn in Hnone. rewrite lookup_insert_eq in Hnone. discriminate.
      * constructor.
        -- exists l. cbn. split; [reflexivity|].
           split; [apply new_array_not_zerobase|].
           split; [apply new_array_unallocated | exact Hl'].
        -- eapply Forall_impl; [exact Hall|]. cbn.
           intros r (l' & Hr & Hz & Hnone & Hsome). exists l'.
           split; [exact Hr|]. split; [exact Hz|]. split; [|exact Hsome].
           eapply lookup_weaken_None; [exact Hnone | exact Hh1].
      * constructor; [cbn; intros E0; lia | exact Hzero].
      * etransitivity; eassumption.
      * rewrite Hs. reflexivity.
Qed.
End SessionFacts.

Lemma accessors_work_after_Close_witness :
  connections (sample_state sample_world) !! 20%positive
  = Some (mkConnection None 10%positive (Some 30%positive))
  /\ established 10%positive (sample_state sample_world) = true
  /\ exists (e : option string) (st' : state flag_world unit unit),
       connection_Close 20%positive (sample_state sample_world) = Some (e, st')
       /\ established 10%positive st' = true
       /\ sshConn_User 10%positive st' = Some ("alice"%string, st').
Proof.
  split; [reflexivity|]. split; [reflexivity|].
  destruct (accessors_work_after_Close 20%positive (sample_state sample_world)
              (mkConnection None 10%positive (Some 30%positive)) sample_sshConn tt
              eq_refl eq_refl eq_refl eq_refl)
    as (e & st' & Hclose & _ & Hest & Huser & _).
  exists e, st'. split; [exact Hclose|]. split; [exact Hest | exact Huser].
Defined.

Lemma nil_stream_only_breaks_stream_methods_witness :
  sshConns (sample_state sample_world) !! 11%positive = Some bare_sshConn
  /\ stream bare_sshConn = None
  /\ sshConn_Close (Err := string) 11%positive (sample_state sample_world) = None
  /\ sshConn_RemoteMultiaddr (Ma := string) 11%positive (sample_state sample_world) = None
  /\ sshConn_User 11%positive (sample_state sample_world)
     = Some (EmptyString, sample_state sample_world).
Proof.
  split; [reflexivity|]. split; [reflexivity|].
  destruct (nil_stream_only_breaks_stream_methods (Err := string) (Ma := string)
              11%positive (sample_state sample_world) bare_sshConn eq_refl eq_refl)
    as (Hclose & Hremote & _ & _ & Huser & _).
  split; [exact Hclose|]. split; [exact Hremote | exact Huser].
Defined.

Lemma accessors_allocate_one_array_per_nonempty_copy_witness :
  established 10%positive (sample_state sample_world) = true
  /\ sshConns (sample_state sample_world) !! 10%positive = Some sample_sshConn
  /\ exists st' : state flag_world unit unit,
       call_accessors [ASessionID; AUser; AServerVersion; ARemoteMultiaddr]
                      10%positive (sample_state sample_world) = Some (tt, st')
       /\ size (heap st') = 5.
Proof.
  split; [reflexivity|]. split; [reflexivity|].
  destruct (accessors_allocate_one_array_per_nonempty_copy
              [ASessionID; AUser; AServerVersion; ARemoteMultiaddr]
              10%positive (sample_state sample_world) sample_sshConn eq_refl eq_refl)
    as (st' & Hcalls & Hsize & _).
  exists st'. split; [exact Hcalls|]. rewrite Hsize. reflexivity.
Defined.

Lemma copies_are_pairwise_separate_witness :
  established 10%positive (sample_state sample_world) = true
  /\ exists (rs : list slice) (st' : state flag_world unit unit),
       collect_copies [sshConn_SessionID; sshConn_SessionID; sshConn_ClientVersion]
                      10%positive (sample_state sample_world) = Some (rs, st')
       /\ length rs = 3
       /\ NoDup (array <$> nonempty rs).
Proof.
  split; [reflexivity|].
  destruct (copies_are_pairwise_separate
              [sshConn_SessionID; sshConn_SessionID; sshConn_ClientVersion]
              10%positive (sample_state sample_world) eq_refl)
    as (rs & st' & Hcalls & Hlen & Hnodup & _).
  { repeat constructor.
    - exists sessionID. left. reflexivity.
    - exists sessionID. left. reflexivity.
    - exists clientVersion. right. left. reflexivity. }
  exists rs, st'. split; [exact Hcalls|]. split; [exact Hlen | exact Hnodup].
Defined.

(** The two copies of the session hash and the copy of the client
    version of the sample session, collected in one run. *)
Example collect_copies_sample :
  fst <$> collect_copies [sshConn_SessionID; sshConn_SessionID; sshConn_ClientVersion]
                         10%positive (sample_state sample_world)
  = Some [ mkSlice (Some 1001%positive) 0 2 2;
           mkSlice (Some 1002%positive) 0 2 2;
           mkSlice (Some 1003%positive) 0 3 3 ].
Proof. vm_compute. reflexivity. Qed.

(** On the session whose byte fields are nil, two calls of
    [ServerVersion] both return the zero-size slice and the heap keeps
    its three arrays. *)
Example copies_of_an_empty_field_share_the_zero_size_address :
  (let* rs := collect_copies [sshConn_ServerVersion; sshConn_ServerVersion] 11%positive in
   fun st => Some ((rs, size (heap st)), st))%go (sample_state sample_world)
  = Some (([zero_slice; zero_slice], 3), sample_state sample_world).
Proof. vm_compute. reflexivity. Qed.
